(** * sqd_helper.hpp: configuration extraction and encoding

    A shallow embedding of [src/sqd_helper.hpp]: the conversion of sampled
    bitstrings to CI strings, the merge with the Hartree-Fock reference,
    the truncation to a budget and the big-endian serialisation.

    - [uint64_t] is [Z] with the wrap-around modulo [2^64] written out,
      [uint8_t] is [Z] below 256, [size_t] is [nat], [int] is [Z];
    - [std::vector] and [boost::dynamic_bitset<>] are lists, position [i] of
      the list being element (bit) [i];
    - [std::set<uint64_t>] is an ascending list without duplicates;
    - what C++ leaves undefined, and what it throws, is kept apart from a
      normal return in the type [outcome];
    - the file system and the two output streams are an explicit [world]. *)

From stdpp Require Import gmap strings list pretty sorting.
From Stdlib Require Import ZArith Lia Sorting.Sorted Ascii.

Local Open Scope Z_scope.

(** ** Outcomes of C++ evaluation *)

Inductive outcome (A : Type) : Type :=
| Done (a : A)            (* normal return *)
| Throws (what : string)  (* a C++ exception leaves the function *)
| Undefined.              (* undefined behaviour: nothing is guaranteed *)

Arguments Done {A} a.
Arguments Throws {A} what.
Arguments Undefined {A}.

#[global] Instance outcome_ret : MRet outcome := fun A a => Done a.
#[global] Instance outcome_bind : MBind outcome := fun A B f m =>
  match m with
  | Done a => f a
  | Throws e => Throws e
  | Undefined => Undefined
  end.

(** ** Machine integers *)

Definition wrap64 (z : Z) : Z := z mod 2 ^ 64.

Definition INT_MAX : Z := 2 ^ 31 - 1.

(** [static_cast<int>] of a [size_t]: reduction modulo [2^32] into the
    signed range. *)
Definition size_to_int (n : nat) : Z :=
  (Z.of_nat n + 2 ^ 31) mod 2 ^ 32 - 2 ^ 31.

(** ** Containers *)

(** [operator[]] of [std::vector] and of [boost::dynamic_bitset<>]: no bounds
    check in a release build (the bitset has an [assert] only), a position
    past the end is undefined behaviour. *)
Definition vec_at {A} (v : list A) (i : nat) : outcome A :=
  match v !! i with
  | Some a => Done a
  | None => Undefined
  end.

(** [std::vector::resize]: cut, or pad with value-initialised elements. *)
Definition resize (n : nat) (v : list Z) : list Z :=
  take n v ++ replicate (n - length v) 0.

(** [std::set<uint64_t>::insert] on the ascending list of the elements. *)
Fixpoint set_insert (x : Z) (s : list Z) : list Z :=
  match s with
  | [] => [x]
  | y :: s' =>
      if x <? y then x :: s
      else if x =? y then s
      else y :: set_insert x s'
  end.

(** [insert(first, last)] and the range constructor of [std::set]. *)
Definition set_insert_range (s : list Z) (xs : list Z) : list Z :=
  fold_left (fun acc x => set_insert x acc) xs s.

Definition set_of_range (xs : list Z) : list Z := set_insert_range [] xs.

(** [std::sort] on a vector of [uint64_t]: the order is total, so the result
    is the ascending arrangement whatever the algorithm; insertion sort
    computes it. *)
Fixpoint sort_insert (x : Z) (l : list Z) : list Z :=
  match l with
  | [] => [x]
  | y :: l' => if x <=? y then x :: l else y :: sort_insert x l'
  end.

Definition std_sort (l : list Z) : list Z := foldr sort_insert [] l.

(** ** bitstring_matrix_to_ci_strs *)

(** [static_cast<uint64_t>(std::pow(2, i))]: exact up to [i = 63]; from 64 on
    the double does not fit and the conversion is undefined. *)
Definition pow2_u64 (i : nat) : outcome Z :=
  if decide (i < 64)%nat then Done (2 ^ Z.of_nat i) else Undefined.

(** One turn of an inner loop, [if (row[i + off]) ci_str[config] += 2^i],
    with [off = 0] for the first loop and [off = norb] for the second. *)
Definition accumulate_bit (row : list bool) (off config : nat)
    (ci_str : outcome (list Z)) (i : nat) : outcome (list Z) :=
  v ← ci_str;
  b ← vec_at row (i + off)%nat;
  if b : bool then
    p ← pow2_u64 i;
    a ← vec_at v config;
    Done (<[config := wrap64 (a + p)]> v)
  else Done v.

Definition sector_loop (row : list bool) (off config norb : nat)
    (ci_str : list Z) : outcome (list Z) :=
  fold_left (accumulate_bit row off config) (seq 0 norb) (Done ci_str).

(** One turn of the loop over the configurations. *)
Definition config_step (bitstring_matrix : list (list bool)) (norb : nat)
    (st : outcome (list Z * list Z)) (config : nat)
    : outcome (list Z * list Z) :=
  '(ci_str_left, ci_str_right) ← st;
  row ← vec_at bitstring_matrix config;
  ci_str_left ← sector_loop row 0 config norb ci_str_left;
  ci_str_right ← sector_loop row norb config norb ci_str_right;
  Done (ci_str_left, ci_str_right).

Definition ci_str_loops (bitstring_matrix : list (list bool)) (norb : nat)
    : outcome (list Z * list Z) :=
  let num_configs := length bitstring_matrix in
  fold_left (config_step bitstring_matrix norb) (seq 0 num_configs)
    (Done (replicate num_configs 0, replicate num_configs 0)).

Definition bitstring_matrix_to_ci_strs (bitstring_matrix : list (list bool))
    (open_shell : bool) : outcome (list Z * list Z) :=
  row0 ← vec_at bitstring_matrix 0;
  let norb := (length row0 / 2)%nat in
  '(ci_str_left, ci_str_right) ← ci_str_loops bitstring_matrix norb;
  let unique_ci_str_left := set_of_range ci_str_left in
  let unique_ci_str_right := set_of_range ci_str_right in
  let combined_set :=
    set_insert_range (set_insert_range [] unique_ci_str_left)
      unique_ci_str_right in
  let result_left := if open_shell then unique_ci_str_left else combined_set in
  let result_right :=
    if open_shell then unique_ci_str_right else combined_set in
  Done (result_right, result_left).

(** ** The run configuration and the outside world *)

Record SQD : Type := mkSQD {
  date_str : string;
  run_id : string;
  n_recovery : Z;
  samples_per_batch : Z;
  verbose : bool;
  with_hf : bool;
  backend_name : string;
  num_shots : Z
}.

(** The files on disk, the paths that cannot be opened for writing, the two
    streams (one entry per line, oldest first) and the local time as
    [get_time] formats it (compact or not). *)
Record world : Type := mkWorld {
  files : gmap string (list Z);
  denied : gset string;
  cout : list string;
  cerr : list string;
  clock : bool → string
}.

Definition get_time (compact : bool) (w : world) : string := clock w compact.

Definition concat_strings (messages : list string) : string :=
  foldr String.append EmptyString messages.

Definition log (sqd_data : SQD) (messages : list string) (w : world) : world :=
  if verbose sqd_data then
    mkWorld (files w) (denied w)
      (cout w ++ [get_time false w +:+ ": " +:+ concat_strings messages])
      (cerr w) (clock w)
  else w.

Definition error (sqd_data : SQD) (messages : list string) (w : world)
    : world :=
  if verbose sqd_data then
    mkWorld (files w) (denied w) (cout w)
      (cerr w ++ [": " +:+ concat_strings messages]) (clock w)
  else w.

(** ** integer_to_bytes, ci_strs_to_bytes *)

(** The loop [for (i = num_bytes - 1; i >= 0; --i)]: [count] is [i + 1]. *)
Fixpoint fill_bytes (count : nat) (result : list Z) (n : Z) : list Z :=
  match count with
  | O => result
  | S i => fill_bytes i (<[i := Z.land n 255]> result) (Z.shiftr n 8)
  end.

Definition integer_to_bytes (n : Z) (norb : Z) : outcome (list Z) :=
  if decide (INT_MAX < norb + 7) then Undefined  (* signed overflow *)
  else
    let num_bytes := Z.quot (norb + 7) 8 in
    if decide (num_bytes < 0) then Throws "std::length_error"
    else
      let result := replicate (Z.to_nat num_bytes) 0 in
      Done (fill_bytes (Z.to_nat num_bytes) result n).

Fixpoint ci_strs_to_bytes (ci_strs : list Z) (norb : Z)
    : outcome (list (list Z)) :=
  match ci_strs with
  | [] => Done []
  | ci_str :: rest =>
      (* the loop pushes in input order; the first element is converted
         first *)
      b ← integer_to_bytes ci_str norb;
      bytes ← ci_strs_to_bytes rest norb;
      Done (b :: bytes)
  end.

(** ** get_unique_ci_strs_with_HF *)

(** [1ULL << num_elec]: undefined from a shift count of 64 on. *)
Definition shl1_u64 (num_elec : nat) : outcome Z :=
  if decide (num_elec < 64)%nat then Done (2 ^ Z.of_nat num_elec)
  else Undefined.

Definition get_unique_ci_strs_with_HF (sqd_data : SQD)
    (left_ci_strs right_ci_strs : list Z) (num_elec : nat)
    : outcome (list Z) :=
  unique_set ←
    (if with_hf sqd_data then
       one ← shl1_u64 num_elec; Done (set_insert (wrap64 (one - 1)) [])
     else Done []);
  let unique_set := set_insert_range unique_set left_ci_strs in
  let unique_set := set_insert_range unique_set right_ci_strs in
  Done (std_sort unique_set).

(** ** write_bytestrings_to_file, write_alphadets_file *)

Definition write_bytestrings_to_file (byte_strings : list (list Z))
    (filename : string) (w : world) : world :=
  if decide (filename ∈ denied w) then
    mkWorld (files w) (denied w) (cout w)
      (cerr w ++ ["Error: Could not open file " +:+ filename]) (clock w)
  else
    (* opened with truncation; each write appends at the end *)
    mkWorld
      (<[filename := fold_left (fun content bs => content ++ bs)
                       byte_strings []]> (files w))
      (denied w) (cout w) (cerr w) (clock w).

Definition to_string (n : nat) : string := pretty n.

Definition alphadets_bin_file (sqd_data : SQD) (i_recovery : nat) : string :=
  "AlphaDets_" +:+ run_id sqd_data +:+ "_" +:+ to_string i_recovery
    +:+ "_cpp.bin".

(** The branch on the budget: the vector after it and the line it logs. *)
Definition truncate_to_budget (unique_ci_strs : list Z)
    (maximum_numbers_of_ctrs : nat) : list Z * list string :=
  if decide (length unique_ci_strs < maximum_numbers_of_ctrs)%nat then
    (unique_ci_strs,
     ["number of unique ci_strs:"; to_string (length unique_ci_strs)])
  else
    let truncated := (length unique_ci_strs - maximum_numbers_of_ctrs)%nat in
    let unique_ci_strs := resize maximum_numbers_of_ctrs unique_ci_strs in
    (unique_ci_strs,
     ["number of unique ci_strs:"; to_string (length unique_ci_strs);
      ", truncated:"; to_string truncated]).

(** The vector [unique_ci_strs] before the branch on the budget. *)
Definition merged_ci_strs (sqd_data : SQD) (num_elec : nat)
    (batch : list (list bool)) : outcome (list Z) :=
  ci_strs ← bitstring_matrix_to_ci_strs batch false;
  get_unique_ci_strs_with_HF sqd_data ci_strs.1 ci_strs.2 num_elec.

(** The vector [unique_ci_strs] after the branch, the one handed to
    [ci_strs_to_bytes]. *)
Definition selected_ci_strs (sqd_data : SQD) (num_elec : nat)
    (batch : list (list bool)) (maximum_numbers_of_ctrs : nat)
    : outcome (list Z) :=
  unique_ci_strs ← merged_ci_strs sqd_data num_elec batch;
  Done (truncate_to_budget unique_ci_strs maximum_numbers_of_ctrs).1.

Definition write_alphadets_file (sqd_data : SQD) (norb num_elec : nat)
    (batch : list (list bool)) (maximum_numbers_of_ctrs i_recovery : nat)
    (w : world) : outcome string * world :=
  let w :=
    log sqd_data ["number of items in a batch: "; to_string (length batch)] w in
  let open_shell := false in
  match bitstring_matrix_to_ci_strs batch open_shell with
  | Done ci_strs =>
      let w := log sqd_data ["number of items in left ci_strs:";
                             to_string (length ci_strs.1)] w in
      let w := log sqd_data ["number of items in right ci_strs:";
                             to_string (length ci_strs.2)] w in
      match get_unique_ci_strs_with_HF sqd_data ci_strs.1 ci_strs.2 num_elec
      with
      | Done unique_ci_strs =>
          let '(unique_ci_strs, line) :=
            truncate_to_budget unique_ci_strs maximum_numbers_of_ctrs in
          let w := log sqd_data line w in
          match ci_strs_to_bytes unique_ci_strs (size_to_int norb) with
          | Done bytestrings =>
              let name := alphadets_bin_file sqd_data i_recovery in
              let w := write_bytestrings_to_file bytestrings name w in
              (Done name, w)
          | Throws e => (Throws e, w)
          | Undefined => (Undefined, w)
          end
      | Throws e => (Throws e, w)
      | Undefined => (Undefined, w)
      end
  | Throws e => (Throws e, w)
  | Undefined => (Undefined, w)
  end.

(** ** Reference definitions for the statements *)

(** The base-2 value of a bit pattern, bit [i] weighing [2^i]. *)
Fixpoint bits_value (b : list bool) : Z :=
  match b with
  | [] => 0
  | x :: b' => Z.b2z x + 2 * bits_value b'
  end.

(** The two halves of a configuration and their values. *)
Definition low_half (norb : nat) (row : list bool) : Z :=
  bits_value (take norb row).

Definition high_half (norb : nat) (row : list bool) : Z :=
  bits_value (take norb (drop norb row)).

(** The input contract: a batch that is not empty, of configurations of
    [2 * norb] bits, with [norb] within the width of [uint64_t]. *)
Definition well_formed (batch : list (list bool)) (norb : nat) : Prop :=
  batch ≠ [] ∧ Forall (fun row => length row = (2 * norb)%nat) batch
  ∧ (norb ≤ 64)%nat.

(** Ascending without duplicates: the iteration order of a [std::set]. *)
Definition ascending (l : list Z) : Prop := StronglySorted Z.lt l.

(** The CI-string encoder on its own: the inner loop of
    [bitstring_matrix_to_ci_strs] run over the whole of [b] on one slot
    initialised to zero. *)
Definition encode_sector (b : list bool) : outcome Z :=
  v ← sector_loop b 0 0 (length b) [0];
  vec_at v 0.

(** Decoding, bit [i] being [(value >> i) & 1]. *)
Definition decode_sector (norb : nat) (value : Z) : list bool :=
  map (fun i => bool_decide (Z.land (Z.shiftr value (Z.of_nat i)) 1 = 1))
      (seq 0 norb).

(** The big-endian base-256 digits of [n] on [k] bytes, most significant
    first. *)
Fixpoint be_bytes (k : nat) (n : Z) : list Z :=
  match k with
  | O => []
  | S k' => be_bytes k' (n / 256) ++ [n mod 256]
  end.

(** The number a byte sequence denotes when read big-endian. *)
Definition be_value (bs : list Z) : Z :=
  fold_left (fun acc b => 256 * acc + b) bs 0.

(** The number of bytes of a record: [ceil(norb / 8)]. *)
Definition record_bytes (norb : Z) : nat := Z.to_nat ((norb + 7) / 8).

(** ** Examples, and two statements of the specification the code fails *)

(** The batch of the worked scenario: bits 0 to 3 are the low half. *)
Definition scenario_batch : list (list bool) :=
  [[true; true; false; false; true; false; false; false];
   [false; true; false; false; true; false; false; false]].

(** A run configuration with the defaults of the struct, logging on. *)
Definition example_sqd : SQD :=
  mkSQD "20250101000000" "run" 3 1000 true true "" 10000.

(** A world with an empty disk on which every path can be opened. *)
Definition example_world : world := mkWorld ∅ ∅ [] [] (fun _ => "now").

(** A world in which the artifact of recovery 0 of run "run" cannot be
    opened. *)
Definition denied_world : world :=
  mkWorld ∅ {["AlphaDets_run_0_cpp.bin"]} [] [] (fun _ => "now").

(** C7 as the specification has it: the first component holds the values of the low
    halves and the second those of the high halves. *)
Definition right_is_low_half (batch : list (list bool)) (norb : nat)
    (open_shell : bool) : Prop :=
  ∀ right left,
    bitstring_matrix_to_ci_strs batch open_shell = Done (right, left) →
    (∀ x, x ∈ right ↔ ∃ row, row ∈ batch ∧ x = low_half norb row)
    ∧ (∀ x, x ∈ left ↔ ∃ row, row ∈ batch ∧ x = high_half norb row).

(** C8 as the specification has it: when the artifact cannot be opened,
    [write_alphadets_file] does not return its name as it does after a
    successful write. *)
Definition open_failure_surfaces (sqd_data : SQD) (norb num_elec : nat)
    (batch : list (list bool)) (budget i_recovery : nat) (w : world) : Prop :=
  alphadets_bin_file sqd_data i_recovery ∈ denied w →
  ∀ name w',
    write_alphadets_file sqd_data norb num_elec batch budget i_recovery w
      ≠ (Done name, w').

(** A configuration the loops can read with orbital count [norb]: it has
    [2 * norb] bits at least, and no bit is set at position 64 or above of
    either half. *)
Definition readable (norb : nat) (row : list bool) : Prop :=
  (2 * norb ≤ length row)%nat
  ∧ ∀ i, (64 ≤ i < norb)%nat →
      row !! i = Some false ∧ row !! (norb + i)%nat = Some false.

(** What [bitstring_matrix_to_ci_strs] returns when it returns, from the
    values of the halves. *)
Definition ci_strs_of_halves (norb : nat) (batch : list (list bool))
    (open_shell : bool) : list Z * list Z :=
  let unique_left := set_of_range (map (low_half norb) batch) in
  let unique_right := set_of_range (map (high_half norb) batch) in
  let combined :=
    set_insert_range (set_insert_range [] unique_left) unique_right in
  (if open_shell then unique_right else combined,
   if open_shell then unique_left else combined).

(** Reading an artifact back: [count] records of [k] bytes each, every one
    read big-endian. *)
Fixpoint decode_records (k count : nat) (content : list Z) : list Z :=
  match count with
  | O => []
  | S count' =>
      be_value (take k content) :: decode_records k count' (drop k content)
  end.

(** ** generate_sqd_data *)

Definition INT_MIN : Z := - 2 ^ 31.

(** [isspace] in the C locale. *)
Definition is_space (c : Ascii.ascii) : bool :=
  let n := Ascii.nat_of_ascii c in
  bool_decide (n = 32 ∨ 9 ≤ n ≤ 13)%nat.

Fixpoint skip_spaces (s : string) : string :=
  match s with
  | String c s' => if is_space c then skip_spaces s' else s
  | EmptyString => s
  end.

Definition digit_of (c : Ascii.ascii) : option Z :=
  let n := Ascii.nat_of_ascii c in
  if decide (48 ≤ n ≤ 57)%nat then Some (Z.of_nat n - 48) else None.

(** The digits [strtol] consumes in base 10: the value read so far and
    whether any digit was read. *)
Fixpoint strtol_digits (s : string) (acc : Z) (seen : bool) : Z * bool :=
  match s with
  | String c s' =>
      match digit_of c with
      | Some d => strtol_digits s' (10 * acc + d) true
      | None => (acc, seen)
      end
  | EmptyString => (acc, seen)
  end.

(** [std::stoi(str)]: [strtol] in base 10 (leading white space, an optional
    sign, then digits up to the first other character);
    [std::invalid_argument] when no digit is read, [std::out_of_range] when
    the value is not an [int]. *)
Definition stoi (str : string) : outcome Z :=
  let s := skip_spaces str in
  let '(negative, s) :=
    match s with
    | String "-"%char s' => (true, s')
    | String "+"%char s' => (false, s')
    | _ => (false, s)
    end in
  let '(magnitude, seen) := strtol_digits s 0 false in
  if seen : bool then
    let value := if negative : bool then - magnitude else magnitude in
    if decide (INT_MIN ≤ value ≤ INT_MAX) then Done value
    else Throws "std::out_of_range"
  else Throws "std::invalid_argument".

(** [argv[i]] converted to [std::string]: [argv] holds [argc] strings and
    then the null pointer, from which no string can be built. *)
Definition arg_at (argv : list string) (i : nat) : outcome string :=
  vec_at argv i.

(** The struct as its default member initialisers leave it ([comm],
    [mpi_rank] and [mpi_size] have none and are not part of the record). *)
Definition default_sqd (w : world) : SQD :=
  let date_str := get_time true w in
  mkSQD date_str date_str 3 1000 false true "" 10000.

(** The four [if]s that take a value; each is
    [if (std::string(argv[i]) == flag) { field = ...(argv[i + 1]); i++; }]
    and the next one looks at [argv[i]] again, with the new [i]. *)
Definition value_option (argv : list string) (flag : string)
    (read : string → outcome SQD) (st : nat * SQD) : outcome (nat * SQD) :=
  a ← arg_at argv st.1;
  if String.eqb a flag then
    v ← arg_at argv (st.1 + 1);
    sqd ← read v;
    Done (S st.1, sqd)
  else Done st.

Definition set_n_recovery (sqd : SQD) (v : Z) : SQD :=
  mkSQD (date_str sqd) (run_id sqd) (wrap64 v) (samples_per_batch sqd)
    (verbose sqd) (with_hf sqd) (backend_name sqd) (num_shots sqd).

Definition set_samples_per_batch (sqd : SQD) (v : Z) : SQD :=
  mkSQD (date_str sqd) (run_id sqd) (n_recovery sqd) (wrap64 v)
    (verbose sqd) (with_hf sqd) (backend_name sqd) (num_shots sqd).

Definition set_backend_name (sqd : SQD) (v : string) : SQD :=
  mkSQD (date_str sqd) (run_id sqd) (n_recovery sqd) (samples_per_batch sqd)
    (verbose sqd) (with_hf sqd) v (num_shots sqd).

Definition set_num_shots (sqd : SQD) (v : Z) : SQD :=
  mkSQD (date_str sqd) (run_id sqd) (n_recovery sqd) (samples_per_batch sqd)
    (verbose sqd) (with_hf sqd) (backend_name sqd) (wrap64 v).

Definition set_verbose (sqd : SQD) : SQD :=
  mkSQD (date_str sqd) (run_id sqd) (n_recovery sqd) (samples_per_batch sqd)
    true (with_hf sqd) (backend_name sqd) (num_shots sqd).

(** One turn of the loop body, from [i] and the struct before it to the [i]
    and the struct after it. *)
Definition parse_step (argv : list string) (st : nat * SQD)
    : outcome (nat * SQD) :=
  st ← value_option argv "--recovery"
         (fun v => n ← stoi v; Done (set_n_recovery st.2 n)) st;
  st ← value_option argv "--number_of_samples"
         (fun v => n ← stoi v; Done (set_samples_per_batch st.2 n)) st;
  st ← value_option argv "--backend_name"
         (fun v => Done (set_backend_name st.2 v)) st;
  st ← value_option argv "--num_shots"
         (fun v => n ← stoi v; Done (set_num_shots st.2 n)) st;
  a ← arg_at argv st.1;
  Done (st.1, if String.eqb a "-v" then set_verbose st.2 else st.2).

(** [for (int i = 1; i < argc; i++)]: every turn moves [i] up by one at
    least, so [argc] turns are enough; [fuel] bounds the turns. *)
Fixpoint parse_loop (fuel : nat) (argv : list string) (i : nat) (sqd : SQD)
    : outcome SQD :=
  if decide (i < length argv)%nat then
    match fuel with
    | O => Undefined
    | S fuel' =>
        st ← parse_step argv (i, sqd);
        parse_loop fuel' argv (S st.1) st.2
    end
  else Done sqd.

Definition generate_sqd_data (argv : list string) (w : world) : outcome SQD :=
  parse_loop (length argv) argv 1 (default_sqd w).

(** The five strings [generate_sqd_data] recognises. *)
Definition is_option (a : string) : Prop :=
  a = "--recovery" ∨ a = "--number_of_samples" ∨ a = "--backend_name"
  ∨ a = "--num_shots" ∨ a = "-v".

(** The four of them that take a value. *)
Definition takes_value (a : string) : Prop :=
  a = "--recovery" ∨ a = "--number_of_samples" ∨ a = "--backend_name"
  ∨ a = "--num_shots".

(** * Properties *)

Ltac well_formed_by_evaluation :=
  split; [discriminate | split; [repeat constructor | lia]].


(** ** The encoder *)

Lemma bits_value_range (b : list bool) :
  0 ≤ bits_value b < 2 ^ Z.of_nat (length b).
Proof.
  induction b as [|x b IH]; [simpl; lia|].
  cbn [bits_value length]. rewrite Nat2Z.inj_succ, Z.pow_succ_r by lia.
  destruct x; simpl Z.b2z; lia.
Qed.

Lemma bits_value_testbit (b : list bool) (i : nat) :
  Z.testbit (bits_value b) (Z.of_nat i) = default false (b !! i).
Proof.
  revert i. induction b as [|x b IH]; intros i.
  - simpl. apply Z.testbit_0_l.
  - cbn [bits_value]. rewrite (Z.add_comm (Z.b2z x)). destruct i as [|i].
    + simpl. apply Z.testbit_0_r.
    + rewrite Nat2Z.inj_succ, Z.testbit_succ_r by lia. apply IH.
Qed.

Lemma land_shiftr_1 (v : Z) (i : nat) :
  Z.land (Z.shiftr v (Z.of_nat i)) 1 = Z.b2z (Z.testbit v (Z.of_nat i)).
Proof.
  change 1 with (Z.ones 1). rewrite Z.land_ones by lia.
  rewrite Z.shiftr_div_pow2 by lia. rewrite Z.testbit_spec' by lia.
  reflexivity.
Qed.

Lemma vec_at_Some {A} (v : list A) (i : nat) (a : A) :
  v !! i = Some a → vec_at v i = Done a.
Proof. intros H. unfold vec_at. by rewrite H. Qed.

Lemma sector_loop_from (row : list bool) (off config : nat) (m : nat) :
  ∀ (k : nat) (v : list Z) (a : Z),
    (k + m ≤ 64)%nat →
    (off + k + m ≤ length row)%nat →
    v !! config = Some a →
    0 ≤ a < 2 ^ Z.of_nat k →
    fold_left (accumulate_bit row off config) (seq k m) (Done v) =
    Done (<[config :=
              a + 2 ^ Z.of_nat k * bits_value (take m (drop (off + k) row))]> v).
Proof.
  induction m as [|m IH]; intros k v a Hk Hlen Hv Ha.
  - simpl. rewrite Z.mul_0_r, Z.add_0_r. by rewrite list_insert_id.
  - assert (is_Some (row !! (off + k)%nat)) as [b Hb]
      by (apply lookup_lt_is_Some; lia).
    rewrite (drop_S _ _ _ Hb). cbn [seq fold_left take bits_value].
    assert (config < length v)%nat as Hc by (eapply lookup_lt_Some; eauto).
    assert (2 ^ Z.of_nat (S k) = 2 * 2 ^ Z.of_nat k) as Hpow
      by (rewrite Nat2Z.inj_succ, Z.pow_succ_r; lia).
    assert (2 ^ Z.of_nat (S k) ≤ 2 ^ 64) as Hle
      by (apply Z.pow_le_mono_r; lia).
    unfold accumulate_bit at 2. cbn [mbind outcome_bind].
    rewrite (vec_at_Some row (k + off) b) by (by rewrite Nat.add_comm).
    cbn [mbind outcome_bind]. destruct b.
    + unfold pow2_u64. rewrite decide_True by lia. cbn [mbind outcome_bind].
      rewrite (vec_at_Some v config a) by done. cbn [mbind outcome_bind].
      assert (wrap64 (a + 2 ^ Z.of_nat k) = a + 2 ^ Z.of_nat k) as ->
        by (unfold wrap64; apply Z.mod_small; lia).
      rewrite (IH (S k) _ (a + 2 ^ Z.of_nat k)); try lia.
      * rewrite list_insert_insert_eq. f_equal. f_equal.
        replace (off + S k)%nat with (S (off + k)) by lia.
        simpl Z.b2z. lia.
      * by apply list_lookup_insert_eq.
    + rewrite (IH (S k) v a); try lia; [|done].
      f_equal. f_equal. replace (off + S k)%nat with (S (off + k)) by lia.
      simpl Z.b2z. lia.
Qed.

Lemma sector_loop_spec (row : list bool) (off config norb : nat)
    (ci_str : list Z) :
  (norb ≤ 64)%nat →
  (off + norb ≤ length row)%nat →
  ci_str !! config = Some 0 →
  sector_loop row off config norb ci_str =
  Done (<[config := bits_value (take norb (drop off row))]> ci_str).
Proof.
  intros Hn Hlen Hc. unfold sector_loop.
  rewrite (sector_loop_from row off config norb 0 ci_str 0);
    [|lia|lia|done|simpl; lia].
  rewrite Nat.add_0_r. simpl (2 ^ Z.of_nat 0). do 2 f_equal. lia.
Qed.

Lemma encode_sector_spec (b : list bool) :
  (length b ≤ 64)%nat → encode_sector b = Done (bits_value b).
Proof.
  intros Hn. unfold encode_sector.
  rewrite sector_loop_spec; [|lia|simpl; lia|done].
  simpl. by rewrite firstn_all.
Qed.

Lemma decode_sector_length (norb : nat) (v : Z) :
  length (decode_sector norb v) = norb.
Proof. unfold decode_sector. by rewrite length_map, length_seq. Qed.

Lemma decode_sector_lookup (norb : nat) (v : Z) (i : nat) :
  (i < norb)%nat →
  decode_sector norb v !! i = Some (Z.testbit v (Z.of_nat i)).
Proof.
  intros Hi. unfold decode_sector. rewrite list_lookup_fmap.
  rewrite lookup_seq_lt by done. simpl. f_equal.
  rewrite land_shiftr_1. by destruct (Z.testbit v (Z.of_nat i)).
Qed.

Lemma decode_bits_value (b : list bool) :
  decode_sector (length b) (bits_value b) = b.
Proof.
  apply list_eq. intros i. destruct (decide (i < length b)%nat) as [Hi|Hi].
  - rewrite decode_sector_lookup by done. rewrite bits_value_testbit.
    destruct (lookup_lt_is_Some_2 b i Hi) as [x Hx]. by rewrite Hx.
  - rewrite !lookup_ge_None_2; [done|lia|rewrite decode_sector_length; lia].
Qed.

Lemma bits_value_decode (norb : nat) (v : Z) :
  0 ≤ v < 2 ^ Z.of_nat norb → bits_value (decode_sector norb v) = v.
Proof.
  intros Hv. apply Z.bits_inj'. intros n Hn.
  rewrite <- (Z2Nat.id n) by lia. rewrite bits_value_testbit.
  destruct (decide (Z.to_nat n < norb)%nat) as [Hi|Hi].
  - by rewrite decode_sector_lookup.
  - rewrite lookup_ge_None_2 by (rewrite decode_sector_length; lia).
    simpl. symmetry. destruct (decide (v = 0)) as [->|Hv0].
    + apply Z.testbit_0_l.
    + assert (2 ^ Z.of_nat norb ≤ 2 ^ Z.of_nat (Z.to_nat n))
        by (apply Z.pow_le_mono_r; lia).
      apply Z.bits_above_log2; [lia|].
      apply Z.log2_lt_pow2; lia.
Qed.

(** C2: for [norb <= 64] the encoder returns, on every bit sector of width
    [norb], a value below [2^norb] whose bits [(value >> i) & 1] are the
    sector again; and every value below [2^norb] is the code of the sector
    it decodes to. Encoder and decoder are inverse bijections between the
    width-[norb] patterns and the integers of [[0, 2^norb)]. *)
Theorem encode_decode_bijection (norb : nat) :
  (norb ≤ 64)%nat →
  (∀ b : list bool, length b = norb →
     ∃ value, encode_sector b = Done value
       ∧ 0 ≤ value < 2 ^ Z.of_nat norb
       ∧ (∀ i x, b !! i = Some x →
            Z.land (Z.shiftr value (Z.of_nat i)) 1 = Z.b2z x)
       ∧ decode_sector norb value = b)
  ∧ (∀ value, 0 ≤ value < 2 ^ Z.of_nat norb →
       length (decode_sector norb value) = norb
       ∧ encode_sector (decode_sector norb value) = Done value)
  ∧ (∀ b1 b2 value, length b1 = norb → length b2 = norb →
       encode_sector b1 = Done value → encode_sector b2 = Done value →
       b1 = b2).
Proof.
  intros Hn. split; [|split].
  - intros b Hb. exists (bits_value b). subst norb.
    split; [by apply encode_sector_spec|].
    split; [apply bits_value_range|]. split.
    + intros i x Hx. rewrite land_shiftr_1, bits_value_testbit. by rewrite Hx.
    + apply decode_bits_value.
  - intros v Hv. split; [apply decode_sector_length|].
    rewrite encode_sector_spec by (rewrite decode_sector_length; lia).
    f_equal. by apply bits_value_decode.
  - intros b1 b2 v H1 H2 E1 E2.
    rewrite encode_sector_spec in E1 by lia.
    rewrite encode_sector_spec in E2 by lia.
    rewrite <- (decode_bits_value b1), <- (decode_bits_value b2).
    rewrite H1, H2. congruence.
Qed.

Lemma encode_decode_bijection_witness :
  (4 ≤ 64)%nat ∧
  (∃ value, encode_sector [true; true; false; false] = Done value
     ∧ decode_sector 4 value = [true; true; false; false]).
Proof.
  split; [lia|].
  destruct (proj1 (encode_decode_bijection 4 ltac:(lia))
              [true; true; false; false] eq_refl) as (v & Hv & _ & _ & Hd).
  exists v. split; assumption.
Defined.

(** ** The byte serialiser *)

Lemma fill_bytes_spec (count : nat) :
  ∀ (result : list Z) (n : Z),
    (count ≤ length result)%nat →
    fill_bytes count result n = be_bytes count n ++ drop count result.
Proof.
  induction count as [|i IH]; intros result n Hlen.
  - simpl. by rewrite drop_0.
  - cbn [fill_bytes be_bytes]. rewrite IH by (rewrite length_insert; lia).
    destruct (lookup_lt_is_Some_2 result i ltac:(lia)) as [y Hy].
    rewrite drop_insert_ge by lia. rewrite (drop_S _ _ _ Hy).
    rewrite Nat.sub_diag. cbn [insert list_insert].
    rewrite <- app_assoc. cbn [app].
    rewrite Z.shiftr_div_pow2 by lia.
    change 255 with (Z.ones 8). rewrite Z.land_ones by lia.
    reflexivity.
Qed.

Lemma be_bytes_length (k : nat) (n : Z) : length (be_bytes k n) = k.
Proof.
  revert n. induction k as [|k IH]; intros n; [done|].
  cbn [be_bytes]. rewrite length_app, IH. simpl. lia.
Qed.

Lemma be_bytes_range (k : nat) (n : Z) :
  Forall (fun b => 0 ≤ b < 256) (be_bytes k n).
Proof.
  revert n. induction k as [|k IH]; intros n; [constructor|].
  cbn [be_bytes]. apply Forall_app. split; [apply IH|].
  constructor; [|constructor]. apply Z.mod_pos_bound. lia.
Qed.

Lemma be_value_snoc (bs : list Z) (b : Z) :
  be_value (bs ++ [b]) = 256 * be_value bs + b.
Proof. unfold be_value. by rewrite fold_left_app. Qed.

Lemma be_value_be_bytes (k : nat) (n : Z) :
  be_value (be_bytes k n) = n mod 256 ^ Z.of_nat k.
Proof.
  revert n. induction k as [|k IH]; intros n.
  - simpl. by rewrite Z.mod_1_r.
  - cbn [be_bytes]. rewrite be_value_snoc, IH.
    rewrite Nat2Z.inj_succ, Z.pow_succ_r by lia.
    rewrite Z.rem_mul_r by lia. lia.
Qed.

Lemma be_bytes_mod (k : nat) (n : Z) :
  be_bytes k (n mod 256 ^ Z.of_nat k) = be_bytes k n.
Proof.
  revert n. induction k as [|k IH]; intros n; [done|].
  cbn [be_bytes]. rewrite Nat2Z.inj_succ, Z.pow_succ_r by lia.
  f_equal.
  - rewrite <- (IH (n / 256)). f_equal.
    rewrite Z.rem_mul_r by lia.
    rewrite (Z.mul_comm 256), Z.div_add by lia.
    rewrite (Z.div_small (n mod 256)) by (apply Z.mod_pos_bound; lia).
    lia.
  - f_equal. rewrite Z.rem_mul_r by lia.
    rewrite (Z.mul_comm 256), Z.mod_add by lia.
    apply Z.mod_mod. lia.
Qed.

Lemma record_bytes_ceil (norb : Z) :
  0 ≤ norb →
  8 * (Z.of_nat (record_bytes norb) - 1) < norb ≤ 8 * Z.of_nat (record_bytes norb).
Proof.
  intros Hn. unfold record_bytes.
  rewrite Z2Nat.id by (apply Z.div_pos; lia).
  pose proof (Z.div_mod (norb + 7) 8 ltac:(lia)).
  pose proof (Z.mod_pos_bound (norb + 7) 8 ltac:(lia)). lia.
Qed.

Lemma integer_to_bytes_spec (n norb : Z) :
  0 ≤ norb ≤ INT_MAX - 7 →
  integer_to_bytes n norb = Done (be_bytes (record_bytes norb) n).
Proof.
  intros Hn. unfold integer_to_bytes.
  rewrite decide_False by lia.
  rewrite Z.quot_div_nonneg by lia.
  assert (0 ≤ (norb + 7) / 8) by (apply Z.div_pos; lia).
  rewrite decide_False by lia. cbn zeta. f_equal.
  fold (record_bytes norb).
  rewrite fill_bytes_spec by (by rewrite length_replicate).
  rewrite drop_ge by (by rewrite length_replicate).
  apply app_nil_r.
Qed.

Lemma ci_strs_to_bytes_spec (ci_strs : list Z) (norb : Z) :
  0 ≤ norb ≤ INT_MAX - 7 →
  ci_strs_to_bytes ci_strs norb =
  Done (map (be_bytes (record_bytes norb)) ci_strs).
Proof.
  intros Hn. induction ci_strs as [|c cs IH]; [done|].
  cbn [ci_strs_to_bytes map]. rewrite integer_to_bytes_spec by done.
  cbn [mbind outcome_bind]. by rewrite IH.
Qed.

Lemma fold_left_app_concat (byte_strings : list (list Z)) (content : list Z) :
  fold_left (fun content bs => content ++ bs) byte_strings content =
  content ++ concat byte_strings.
Proof.
  revert content. induction byte_strings as [|bs rest IH]; intros content.
  - simpl. by rewrite app_nil_r.
  - cbn [fold_left concat]. rewrite IH. by rewrite app_assoc.
Qed.

Lemma write_bytestrings_to_file_ok (byte_strings : list (list Z))
    (filename : string) (w : world) :
  filename ∉ denied w →
  write_bytestrings_to_file byte_strings filename w =
  mkWorld (<[filename := concat byte_strings]> (files w))
    (denied w) (cout w) (cerr w) (clock w).
Proof.
  intros H. unfold write_bytestrings_to_file. rewrite decide_False by done.
  by rewrite fold_left_app_concat.
Qed.

Lemma write_bytestrings_to_file_denied (byte_strings : list (list Z))
    (filename : string) (w : world) :
  filename ∈ denied w →
  write_bytestrings_to_file byte_strings filename w =
  mkWorld (files w) (denied w) (cout w)
    (cerr w ++ ["Error: Could not open file " +:+ filename]) (clock w).
Proof.
  intros H. unfold write_bytestrings_to_file. by rewrite decide_True.
Qed.

(** C1: for [norb] in [[1,64]] and a CI string [n <= 2^norb - 1],
    [integer_to_bytes] returns [ceil(norb/8)] bytes, the big-endian base-256
    digits of [n], whose value is [n] and whose bits from [norb] on are
    zero; and [ci_strs_to_bytes] followed by [write_bytestrings_to_file]
    leaves in the file exactly these records, in input order, one after
    the other. *)
Theorem integer_to_bytes_big_endian (norb n : Z) :
  1 ≤ norb ≤ 64 →
  0 ≤ n ≤ 2 ^ norb - 1 →
  (∃ bs, integer_to_bytes n norb = Done bs
     ∧ 8 * (Z.of_nat (length bs) - 1) < norb ≤ 8 * Z.of_nat (length bs)
     ∧ Forall (fun b => 0 ≤ b < 256) bs
     ∧ bs = be_bytes (length bs) n
     ∧ be_value bs = n
     ∧ (∀ i, norb ≤ i → Z.testbit (be_value bs) i = false))
  ∧ (∀ (ci_strs : list Z) (filename : string) (w : world),
       filename ∉ denied w →
       ∃ records, ci_strs_to_bytes ci_strs norb = Done records
         ∧ Forall2 (fun c r => integer_to_bytes c norb = Done r)
             ci_strs records
         ∧ files (write_bytestrings_to_file records filename w) !! filename
           = Some (concat records)
         ∧ length (concat records)
           = (length ci_strs * record_bytes norb)%nat).
Proof.
  intros Hn Hv.
  assert (0 ≤ norb ≤ INT_MAX - 7) as Hint by (unfold INT_MAX; lia).
  pose proof (record_bytes_ceil norb ltac:(lia)) as Hceil.
  assert (n < 256 ^ Z.of_nat (record_bytes norb)) as Hsmall.
  { change 256 with (2 ^ 8). rewrite <- Z.pow_mul_r by lia.
    assert (2 ^ norb ≤ 2 ^ (8 * Z.of_nat (record_bytes norb)))
      by (apply Z.pow_le_mono_r; lia).
    lia. }
  split.
  - exists (be_bytes (record_bytes norb) n).
    rewrite be_bytes_length, be_value_be_bytes, Z.mod_small by lia.
    split; [by apply integer_to_bytes_spec|].
    split; [done|]. split; [apply be_bytes_range|].
    split; [done|]. split; [done|].
    intros i Hi. destruct (decide (n = 0)) as [->|Hn0].
    + apply Z.testbit_0_l.
    + apply Z.bits_above_log2; [lia|].
      assert (Z.log2 n < norb) by (apply Z.log2_lt_pow2; lia). lia.
  - intros ci_strs filename w Hopen.
    exists (map (be_bytes (record_bytes norb)) ci_strs).
    split; [by apply ci_strs_to_bytes_spec|]. split; [|split].
    + apply Forall2_fmap_r, Forall_Forall2_diag, Forall_forall.
      intros c _. by apply integer_to_bytes_spec.
    + rewrite write_bytestrings_to_file_ok by done. simpl.
      apply lookup_insert_eq.
    + induction ci_strs as [|c cs IH]; [done|].
      cbn [map concat length]. rewrite length_app, be_bytes_length, IH. lia.
Qed.

Lemma integer_to_bytes_big_endian_witness :
  ∃ bs, integer_to_bytes 11 12 = Done bs ∧ be_value bs = 11.
Proof.
  destruct (proj1 (integer_to_bytes_big_endian 12 11 ltac:(lia) ltac:(lia)))
    as (bs & Hbs & _ & _ & _ & Hval & _).
  exists bs. split; assumption.
Defined.

(** C10: for [norb] in [[1,64]] every 64-bit [n] is encoded, in
    [ceil(norb/8)] bytes, as the big-endian digits of [n] modulo
    [2^(8*ceil(norb/8))]: a value from that power on is wrapped, neither
    rejected nor given more bytes, and a value from [2^norb] up to it
    leaves a bit set in the padding. *)
Theorem integer_to_bytes_wraps (norb n : Z) :
  1 ≤ norb ≤ 64 →
  0 ≤ n < 2 ^ 64 →
  let k := record_bytes norb in
  integer_to_bytes n norb = Done (be_bytes k (n mod 2 ^ (8 * Z.of_nat k)))
  ∧ length (be_bytes k (n mod 2 ^ (8 * Z.of_nat k))) = k
  ∧ (2 ^ (8 * Z.of_nat k) ≤ n →
       integer_to_bytes n norb
         = integer_to_bytes (n mod 2 ^ (8 * Z.of_nat k)) norb
       ∧ be_value (be_bytes k (n mod 2 ^ (8 * Z.of_nat k)))
         = n mod 2 ^ (8 * Z.of_nat k)
       ∧ n mod 2 ^ (8 * Z.of_nat k) ≠ n)
  ∧ (2 ^ norb ≤ n < 2 ^ (8 * Z.of_nat k) →
       ∃ i, norb ≤ i < 8 * Z.of_nat k
         ∧ Z.testbit (be_value (be_bytes k (n mod 2 ^ (8 * Z.of_nat k)))) i
           = true).
Proof.
  intros Hn Hv k.
  assert (0 ≤ norb ≤ INT_MAX - 7) as Hint by (unfold INT_MAX; lia).
  assert (2 ^ (8 * Z.of_nat k) = 256 ^ Z.of_nat k) as Hpow
    by (change 256 with (2 ^ 8); rewrite <- Z.pow_mul_r; lia).
  assert (0 < 256 ^ Z.of_nat k) by (apply Z.pow_pos_nonneg; lia).
  rewrite !Hpow, be_bytes_mod, be_bytes_length.
  rewrite !integer_to_bytes_spec by done. fold k.
  rewrite be_bytes_mod, be_value_be_bytes.
  split; [done|]. split; [done|]. split.
  - intros Hbig. split; [done|]. split; [done|].
    pose proof (Z.mod_pos_bound n (256 ^ Z.of_nat k) ltac:(lia)). lia.
  - intros [Hlo Hhi]. rewrite Z.mod_small by lia.
    exists (Z.log2 n).
    assert (0 < n) by (pose proof (Z.pow_pos_nonneg 2 norb); lia).
    split; [|by apply Z.bit_log2].
    split.
    + apply Z.log2_le_pow2; lia.
    + rewrite <- Hpow in Hhi. apply Z.log2_lt_pow2; lia.
Qed.

Lemma integer_to_bytes_wraps_witness :
  integer_to_bytes 259 4 = Done [3] ∧ 259 mod 2 ^ 8 ≠ 259.
Proof.
  destruct (integer_to_bytes_wraps 4 259 ltac:(lia) ltac:(lia))
    as (Hrun & _ & Hwrap & _).
  split; [exact Hrun|].
  apply Hwrap. vm_compute. discriminate.
Defined.

(** ** Ordered sets and sorting *)

Lemma set_insert_elem (x y : Z) (s : list Z) :
  y ∈ set_insert x s ↔ y = x ∨ y ∈ s.
Proof.
  induction s as [|z s IH]; cbn [set_insert].
  - rewrite list_elem_of_singleton, elem_of_nil. tauto.
  - destruct (Z.ltb_spec x z); [rewrite !elem_of_cons; tauto|].
    destruct (Z.eqb_spec x z) as [->|]; [rewrite !elem_of_cons; tauto|].
    rewrite !elem_of_cons, IH. tauto.
Qed.

Lemma set_insert_ascending (x : Z) (s : list Z) :
  ascending s → ascending (set_insert x s).
Proof.
  unfold ascending. induction s as [|z s IH]; intros Hs; cbn [set_insert].
  - repeat constructor.
  - apply StronglySorted_inv in Hs as [Hs Hz].
    destruct (Z.ltb_spec x z).
    + constructor; [by constructor|]. constructor; [done|].
      eapply Forall_impl; [exact Hz|]. simpl. lia.
    + destruct (Z.eqb_spec x z); [by constructor|].
      constructor; [by apply IH|].
      apply Forall_forall. intros y Hy. apply set_insert_elem in Hy as [->|Hy].
      * lia.
      * rewrite Forall_forall in Hz. by apply Hz.
Qed.

Lemma set_insert_range_elem (s xs : list Z) (y : Z) :
  y ∈ set_insert_range s xs ↔ y ∈ s ∨ y ∈ xs.
Proof.
  unfold set_insert_range. revert s.
  induction xs as [|x xs IH]; intros s; cbn [fold_left].
  - rewrite elem_of_nil. tauto.
  - rewrite IH, set_insert_elem, elem_of_cons. tauto.
Qed.

Lemma set_insert_range_ascending (s xs : list Z) :
  ascending s → ascending (set_insert_range s xs).
Proof.
  unfold set_insert_range. revert s.
  induction xs as [|x xs IH]; intros s Hs; cbn [fold_left]; [done|].
  by apply IH, set_insert_ascending.
Qed.

Lemma ascending_nil : ascending [].
Proof. constructor. Qed.

Lemma set_of_range_elem (xs : list Z) (y : Z) :
  y ∈ set_of_range xs ↔ y ∈ xs.
Proof.
  unfold set_of_range. rewrite set_insert_range_elem, elem_of_nil. tauto.
Qed.

Lemma set_of_range_ascending (xs : list Z) : ascending (set_of_range xs).
Proof. apply set_insert_range_ascending, ascending_nil. Qed.

(** Sorting what is already in ascending order changes nothing. *)
Lemma std_sort_ascending (l : list Z) : ascending l → std_sort l = l.
Proof.
  unfold ascending, std_sort. induction l as [|x l IH]; intros Hl; [done|].
  apply StronglySorted_inv in Hl as [Hl Hx]. cbn [foldr]. rewrite IH by done.
  destruct l as [|y l]; [done|]. cbn [sort_insert].
  apply Forall_cons in Hx as [Hxy _].
  destruct (Z.leb_spec x y); [done|lia].
Qed.

Lemma sort_insert_perm (x : Z) (l : list Z) : sort_insert x l ≡ₚ x :: l.
Proof.
  induction l as [|y l IH]; [done|]. cbn [sort_insert].
  destruct (x <=? y); [done|]. rewrite IH. apply Permutation_swap.
Qed.

Lemma std_sort_perm (l : list Z) : std_sort l ≡ₚ l.
Proof.
  unfold std_sort. induction l as [|x l IH]; [done|].
  cbn [foldr]. by rewrite sort_insert_perm, IH.
Qed.

Lemma sort_insert_sorted (x : Z) (l : list Z) :
  StronglySorted Z.le l → StronglySorted Z.le (sort_insert x l).
Proof.
  induction l as [|y l IH]; intros Hl; cbn [sort_insert].
  - repeat constructor.
  - apply StronglySorted_inv in Hl as [Hl Hy].
    destruct (Z.leb_spec x y).
    + constructor; [by constructor|]. constructor; [done|].
      eapply Forall_impl; [exact Hy|]. simpl. lia.
    + constructor; [by apply IH|].
      rewrite sort_insert_perm. constructor; [lia|done].
Qed.

Lemma std_sort_sorted (l : list Z) : StronglySorted Z.le (std_sort l).
Proof.
  unfold std_sort. induction l as [|x l IH]; [constructor|].
  cbn [foldr]. by apply sort_insert_sorted.
Qed.

(** ** The loops of bitstring_matrix_to_ci_strs *)

Lemma config_loop_from (batch : list (list bool)) (norb : nat) (m : nat) :
  ∀ k : nat,
    (norb ≤ 64)%nat →
    Forall (fun row => length row = (2 * norb)%nat) batch →
    (k + m)%nat = length batch →
    fold_left (config_step batch norb) (seq k m)
      (Done (map (low_half norb) (take k batch) ++ replicate m 0,
             map (high_half norb) (take k batch) ++ replicate m 0)) =
    Done (map (low_half norb) batch, map (high_half norb) batch).
Proof.
  induction m as [|m IH]; intros k Hn Hrows Hlen.
  - simpl. rewrite !app_nil_r, take_ge by lia. done.
  - destruct (lookup_lt_is_Some_2 batch k ltac:(lia)) as [row Hrow].
    assert (length row = (2 * norb)%nat) as Hrl
      by (rewrite Forall_forall in Hrows; eapply Hrows, list_elem_of_lookup_2;
          eauto).
    assert (length (take k batch) = k) as Htk by (rewrite length_take; lia).
    cbn [seq fold_left]. unfold config_step at 2. cbn [mbind outcome_bind].
    rewrite (vec_at_Some batch k row) by done. cbn [mbind outcome_bind].
    rewrite sector_loop_spec; [|lia|lia|].
    2:{ rewrite lookup_app_r by (rewrite length_map; lia).
        rewrite length_map, Htk, Nat.sub_diag. done. }
    cbn [mbind outcome_bind].
    rewrite sector_loop_spec; [|lia|lia|].
    2:{ rewrite lookup_app_r by (rewrite length_map; lia).
        rewrite length_map, Htk, Nat.sub_diag. done. }
    cbn [mbind outcome_bind].
    rewrite !insert_app_r_alt by (rewrite length_map; lia).
    rewrite !length_map, Htk, Nat.sub_diag. cbn [replicate insert list_insert].
    rewrite drop_0. fold (low_half norb row). fold (high_half norb row).
    rewrite <- (IH (S k)) by (done || lia).
    rewrite (take_S_r batch k row) by done.
    rewrite !map_app. cbn [map]. by rewrite <- !app_assoc.
Qed.

Lemma ci_str_loops_spec (batch : list (list bool)) (norb : nat) :
  (norb ≤ 64)%nat →
  Forall (fun row => length row = (2 * norb)%nat) batch →
  ci_str_loops batch norb =
  Done (map (low_half norb) batch, map (high_half norb) batch).
Proof.
  intros Hn Hrows. unfold ci_str_loops.
  by rewrite <- (config_loop_from batch norb (length batch) 0).
Qed.

(** The result on a well-formed batch, in closed form. *)
Lemma bitstring_matrix_to_ci_strs_spec (batch : list (list bool))
    (norb : nat) (open_shell : bool) :
  well_formed batch norb →
  bitstring_matrix_to_ci_strs batch open_shell =
  let unique_left := set_of_range (map (low_half norb) batch) in
  let unique_right := set_of_range (map (high_half norb) batch) in
  let combined :=
    set_insert_range (set_insert_range [] unique_left) unique_right in
  Done (if open_shell then unique_right else combined,
        if open_shell then unique_left else combined).
Proof.
  intros (Hne & Hrows & Hn). unfold bitstring_matrix_to_ci_strs.
  destruct batch as [|row0 batch]; [done|].
  assert (length row0 = (2 * norb)%nat) as Hr0
    by (by apply Forall_cons in Hrows as [? _]).
  cbn [vec_at lookup list_lookup mbind outcome_bind].
  rewrite Hr0. replace (2 * norb / 2)%nat with norb
    by (rewrite Nat.mul_comm, Nat.div_mul; lia).
  rewrite ci_str_loops_spec by done. done.
Qed.

Lemma closed_shell_from_open_shell (batch : list (list bool)) :
  bitstring_matrix_to_ci_strs batch false =
  (p ← bitstring_matrix_to_ci_strs batch true;
   let combined := set_insert_range (set_insert_range [] p.2) p.1 in
   Done (combined, combined)).
Proof.
  unfold bitstring_matrix_to_ci_strs.
  destruct (vec_at batch 0) as [row0| |]; cbn [mbind outcome_bind]; try done.
  destruct (ci_str_loops batch (length row0 / 2)) as [[l r]| |]; done.
Qed.

Lemma combined_elem (left right : list Z) (x : Z) :
  x ∈ set_insert_range (set_insert_range [] left) right ↔
  x ∈ left ∨ x ∈ right.
Proof. rewrite !set_insert_range_elem, elem_of_nil. tauto. Qed.

Lemma combined_ascending (left right : list Z) :
  ascending (set_insert_range (set_insert_range [] left) right).
Proof. do 2 apply set_insert_range_ascending. apply ascending_nil. Qed.

(** C4: with [open_shell] false the two returned collections are one and the
    same ascending duplicate-free list, whose members are the members of
    the two collections returned with [open_shell] true; the closed-shell
    call returns exactly when the open-shell call does, and both return on
    every well-formed batch. *)
Theorem closed_shell_union (batch : list (list bool)) :
  (∀ right left,
     bitstring_matrix_to_ci_strs batch true = Done (right, left) →
     ∃ u, bitstring_matrix_to_ci_strs batch false = Done (u, u)
       ∧ ascending u
       ∧ ∀ x, x ∈ u ↔ x ∈ left ∨ x ∈ right)
  ∧ (∀ first second,
       bitstring_matrix_to_ci_strs batch false = Done (first, second) →
       first = second
       ∧ ∃ right left,
           bitstring_matrix_to_ci_strs batch true = Done (right, left)
           ∧ ∀ x, x ∈ first ↔ x ∈ left ∨ x ∈ right)
  ∧ (∀ norb, well_formed batch norb →
       ∃ right left u,
         bitstring_matrix_to_ci_strs batch true = Done (right, left)
         ∧ bitstring_matrix_to_ci_strs batch false = Done (u, u)).
Proof.
  split; [|split].
  - intros right left Hopen. rewrite closed_shell_from_open_shell, Hopen.
    cbn [mbind outcome_bind fst snd]. eexists. split; [done|].
    split; [apply combined_ascending|apply combined_elem].
  - intros first second. rewrite closed_shell_from_open_shell.
    destruct (bitstring_matrix_to_ci_strs batch true) as [[right left]| |];
      cbn [mbind outcome_bind fst snd]; try done.
    intros [= <- <-]. split; [done|]. exists right, left.
    split; [done|apply combined_elem].
  - intros norb Hwf. do 3 eexists.
    rewrite !(bitstring_matrix_to_ci_strs_spec batch norb) by done.
    cbn zeta. split; reflexivity.
Qed.

Lemma closed_shell_union_witness :
  ∃ u, bitstring_matrix_to_ci_strs scenario_batch false = Done (u, u)
    ∧ ∀ x, x ∈ u ↔ x ∈ [2; 3] ∨ x ∈ [1].
Proof.
  destruct (proj1 (closed_shell_union scenario_batch) [1] [2; 3] eq_refl)
    as (u & Hu & _ & Hx).
  exists u. split; assumption.
Defined.

(** On the one configuration with bit 0 set and bit 1 clear the first
    component is [[0]], the value of the high half, and the second [[1]]. *)
Lemma right_is_low_half_counterexample :
  well_formed [[true; false]] 1
  ∧ bitstring_matrix_to_ci_strs [[true; false]] true = Done ([0], [1])
  ∧ low_half 1 [true; false] = 1
  ∧ high_half 1 [true; false] = 0
  ∧ ¬ right_is_low_half [[true; false]] 1 true.
Proof.
  split; [split; [done|split; [by repeat constructor|lia]]|].
  split; [reflexivity|]. split; [reflexivity|]. split; [reflexivity|].
  intros H. destruct (H [0] [1] eq_refl) as [Hr _].
  assert (1 ∈ [0]) as Hin.
  { apply Hr. exists [true; false]. split; [apply list_elem_of_here|done]. }
  apply list_elem_of_singleton in Hin. discriminate.
Qed.

(** C7, amended: on a well-formed batch, with [open_shell] true, the first
    component (the code's [result_right]) is the ascending duplicate-free
    list of the base-2 values of the high halves, bits [[norb, 2*norb)], and
    the second (the code's [result_left]) that of the low halves, bits
    [[0, norb)]; with [open_shell] false both components are the ascending
    duplicate-free list of the values of all halves. *)
Theorem sectors_of_halves (batch : list (list bool)) (norb : nat) :
  well_formed batch norb →
  (∃ right left,
     bitstring_matrix_to_ci_strs batch true = Done (right, left)
     ∧ ascending right ∧ ascending left
     ∧ (∀ x, x ∈ right ↔ ∃ row, row ∈ batch ∧ x = high_half norb row)
     ∧ (∀ x, x ∈ left ↔ ∃ row, row ∈ batch ∧ x = low_half norb row))
  ∧ (∃ u,
       bitstring_matrix_to_ci_strs batch false = Done (u, u)
       ∧ ascending u
       ∧ ∀ x, x ∈ u ↔
           ∃ row, row ∈ batch
             ∧ (x = low_half norb row ∨ x = high_half norb row))
  ∧ (∀ row i, row ∈ batch → (i < norb)%nat →
       Some (Z.testbit (low_half norb row) (Z.of_nat i)) = row !! i
       ∧ Some (Z.testbit (high_half norb row) (Z.of_nat i))
         = row !! (norb + i)%nat).
Proof.
  intros Hwf. split; [|split].
  - rewrite (bitstring_matrix_to_ci_strs_spec batch norb) by done. cbn zeta.
    do 2 eexists. split; [done|].
    split; [apply set_of_range_ascending|].
    split; [apply set_of_range_ascending|].
    split; intros x; rewrite set_of_range_elem, list_elem_of_fmap;
      split; intros (row & H1 & H2); exists row; split; assumption.
  - rewrite (bitstring_matrix_to_ci_strs_spec batch norb) by done. cbn zeta.
    eexists. split; [done|]. split; [apply combined_ascending|].
    intros x. rewrite combined_elem, !set_of_range_elem, !list_elem_of_fmap.
    split.
    + intros [(row & -> & Hrow)|(row & -> & Hrow)]; exists row; auto.
    + intros (row & Hrow & [-> | ->]); [left|right]; exists row; auto.
  - intros row i Hrow Hi. destruct Hwf as (_ & Hrows & _).
    rewrite Forall_forall in Hrows. specialize (Hrows row Hrow).
    unfold low_half, high_half. rewrite !bits_value_testbit.
    rewrite !lookup_take_lt by done. rewrite lookup_drop.
    destruct (lookup_lt_is_Some_2 row i ltac:(lia)) as [b ->].
    destruct (lookup_lt_is_Some_2 row (norb + i) ltac:(lia)) as [b' ->].
    done.
Qed.

Lemma sectors_of_halves_witness :
  ∃ right left,
    bitstring_matrix_to_ci_strs scenario_batch true = Done (right, left)
    ∧ ascending right ∧ ascending left.
Proof.
  destruct (proj1 (sectors_of_halves scenario_batch 4
                     ltac:(well_formed_by_evaluation)))
    as (right & left & H & Hr & Hl & _).
  exists right, left. repeat split; assumption.
Defined.

(** ** The merge with the Hartree-Fock reference *)

Lemma get_unique_ci_strs_with_HF_Done (sqd_data : SQD)
    (left_ci_strs right_ci_strs : list Z) (num_elec : nat) (s : list Z) :
  get_unique_ci_strs_with_HF sqd_data left_ci_strs right_ci_strs num_elec
    = Done s →
  ascending s
  ∧ ∀ x, x ∈ s ↔
      (with_hf sqd_data = true ∧ x = wrap64 (2 ^ Z.of_nat num_elec - 1))
      ∨ x ∈ left_ci_strs ∨ x ∈ right_ci_strs.
Proof.
  unfold get_unique_ci_strs_with_HF, shl1_u64. intros H.
  destruct (with_hf sqd_data).
  - destruct (decide (num_elec < 64)%nat); [|done].
    cbn [mbind outcome_bind] in H. injection H as <-.
    rewrite std_sort_ascending
      by (do 2 apply set_insert_range_ascending; repeat constructor).
    split; [do 2 apply set_insert_range_ascending; repeat constructor|].
    intros x. rewrite !set_insert_range_elem. cbn [set_insert].
    rewrite list_elem_of_singleton. tauto.
  - cbn [mbind outcome_bind] in H. injection H as <-.
    rewrite std_sort_ascending
      by (do 2 apply set_insert_range_ascending; constructor).
    split; [do 2 apply set_insert_range_ascending; constructor|].
    intros x. rewrite !set_insert_range_elem, elem_of_nil.
    split; [tauto|]. intros [[? _]|?]; [done|tauto].
Qed.

Lemma get_unique_ci_strs_with_HF_defined (sqd_data : SQD)
    (left_ci_strs right_ci_strs : list Z) (num_elec : nat) :
  (with_hf sqd_data = true → (num_elec < 64)%nat) →
  ∃ s, get_unique_ci_strs_with_HF sqd_data left_ci_strs right_ci_strs
         num_elec = Done s.
Proof.
  intros H. unfold get_unique_ci_strs_with_HF, shl1_u64.
  destruct (with_hf sqd_data).
  - rewrite decide_True by auto. cbn [mbind outcome_bind]. by eexists.
  - cbn [mbind outcome_bind]. by eexists.
Qed.

(** C5: with [with_hf] set and [num_elec < 64], whatever the two input
    sequences, [get_unique_ci_strs_with_HF] returns, and what it returns
    (the set before any truncation) contains [2^num_elec - 1]. *)
Theorem reference_included (sqd_data : SQD)
    (left_ci_strs right_ci_strs : list Z) (num_elec : nat) :
  with_hf sqd_data = true →
  (num_elec < 64)%nat →
  ∃ s, get_unique_ci_strs_with_HF sqd_data left_ci_strs right_ci_strs
         num_elec = Done s
    ∧ 2 ^ Z.of_nat num_elec - 1 ∈ s.
Proof.
  intros Hhf Hne.
  destruct (get_unique_ci_strs_with_HF_defined sqd_data left_ci_strs
              right_ci_strs num_elec ltac:(auto)) as [s Hs].
  exists s. split; [done|].
  apply get_unique_ci_strs_with_HF_Done in Hs as [_ Hs]. apply Hs. left.
  split; [done|]. unfold wrap64. symmetry. apply Z.mod_small.
  assert (0 < 2 ^ Z.of_nat num_elec) by (apply Z.pow_pos_nonneg; lia).
  assert (2 ^ Z.of_nat num_elec < 2 ^ 64) by (apply Z.pow_lt_mono_r; lia).
  lia.
Qed.

Lemma reference_included_witness :
  ∃ s, get_unique_ci_strs_with_HF example_sqd [5; 9] [6] 2 = Done s
    ∧ 3 ∈ s.
Proof.
  exact (reference_included example_sqd [5; 9] [6] 2 eq_refl ltac:(lia)).
Defined.

(** ** The pipeline *)

Lemma log_files (sqd_data : SQD) (messages : list string) (w : world) :
  files (log sqd_data messages w) = files w
  ∧ denied (log sqd_data messages w) = denied w
  ∧ cerr (log sqd_data messages w) = cerr w.
Proof. unfold log. by destruct (verbose sqd_data). Qed.

Lemma truncate_to_budget_take (unique_ci_strs : list Z) (budget : nat) :
  (truncate_to_budget unique_ci_strs budget).1 = take budget unique_ci_strs.
Proof.
  unfold truncate_to_budget, resize. case_decide; cbn [fst].
  - by rewrite take_ge by lia.
  - replace (budget - length unique_ci_strs)%nat with 0%nat by lia.
    apply app_nil_r.
Qed.

(** What [write_alphadets_file] returns, and what it leaves on disk and on
    the error stream when it returns normally. *)
Lemma write_alphadets_file_Done (sqd_data : SQD) (norb num_elec : nat)
    (batch : list (list bool)) (budget i_recovery : nat) (w w' : world)
    (name : string) :
  write_alphadets_file sqd_data norb num_elec batch budget i_recovery w
    = (Done name, w') →
  ∃ kept records,
    selected_ci_strs sqd_data num_elec batch budget = Done kept
    ∧ ci_strs_to_bytes kept (size_to_int norb) = Done records
    ∧ name = alphadets_bin_file sqd_data i_recovery
    ∧ denied w' = denied w
    ∧ files w' = (if decide (name ∈ denied w) then files w
                  else <[name := concat records]> (files w))
    ∧ cerr w' = (if decide (name ∈ denied w)
                 then cerr w ++ ["Error: Could not open file " +:+ name]
                 else cerr w).
Proof.
  unfold write_alphadets_file, selected_ci_strs, merged_ci_strs.
  destruct (bitstring_matrix_to_ci_strs batch false) as [ci| |];
    cbn [mbind outcome_bind]; try done.
  destruct (get_unique_ci_strs_with_HF sqd_data ci.1 ci.2 num_elec)
    as [unique| |]; cbn [mbind outcome_bind]; try done.
  destruct (truncate_to_budget unique budget) as [kept line] eqn:Ht.
  cbn [fst].
  destruct (ci_strs_to_bytes kept (size_to_int norb)) as [records| |]
    eqn:Hrec; try done.
  intros [= <- <-]. exists kept, records.
  split; [done|]. split; [done|]. split; [done|].
  set (wl := log sqd_data line _).
  assert (files wl = files w ∧ denied wl = denied w ∧ cerr wl = cerr w)
    as (Hf & Hd & He).
  { unfold wl. repeat (rewrite (proj1 (log_files _ _ _)),
      (proj1 (proj2 (log_files _ _ _))), (proj2 (proj2 (log_files _ _ _)))).
    done. }
  unfold write_bytestrings_to_file. rewrite Hd.
  case_decide; cbn [files denied cerr]; rewrite ?fold_left_app_concat;
    by rewrite ?Hf, ?Hd, ?He.
Qed.

Lemma size_to_int_small (norb : nat) :
  Z.of_nat norb ≤ INT_MAX → size_to_int norb = Z.of_nat norb.
Proof.
  unfold size_to_int, INT_MAX. intros H.
  rewrite Z.mod_small by lia. lia.
Qed.

Lemma write_alphadets_file_defined (sqd_data : SQD) (norb num_elec : nat)
    (batch : list (list bool)) (budget i_recovery : nat) (w : world)
    (m : nat) :
  well_formed batch m →
  (with_hf sqd_data = true → (num_elec < 64)%nat) →
  Z.of_nat norb ≤ INT_MAX - 7 →
  ∃ w', write_alphadets_file sqd_data norb num_elec batch budget i_recovery w
          = (Done (alphadets_bin_file sqd_data i_recovery), w').
Proof.
  intros Hwf Hne Hnorb. unfold write_alphadets_file.
  rewrite (bitstring_matrix_to_ci_strs_spec batch m) by done. cbn zeta.
  cbn [fst snd].
  match goal with
  | |- context [get_unique_ci_strs_with_HF ?s ?l ?r ?n] =>
      destruct (get_unique_ci_strs_with_HF_defined s l r n Hne) as [u ->]
  end.
  destruct (truncate_to_budget u budget) as [kept line].
  rewrite size_to_int_small by lia.
  rewrite ci_strs_to_bytes_spec by (unfold INT_MAX in *; lia).
  by eexists.
Qed.

(** C3: whenever [write_alphadets_file] returns, the CI strings it
    serialised are in ascending order without duplicates, at most
    [maximum_numbers_of_ctrs] many, and, when the merged set is larger than
    the budget, exactly the first [maximum_numbers_of_ctrs] of the merged
    ascending sequence, each smaller than every dropped one; and it does
    return on every well-formed batch. *)
Theorem serialised_sorted_and_bounded (sqd_data : SQD) (norb num_elec : nat)
    (batch : list (list bool)) (maximum_numbers_of_ctrs i_recovery : nat)
    (w : world) :
  (∀ name w',
     write_alphadets_file sqd_data norb num_elec batch
       maximum_numbers_of_ctrs i_recovery w = (Done name, w') →
     ∃ merged kept records,
       merged_ci_strs sqd_data num_elec batch = Done merged
       ∧ selected_ci_strs sqd_data num_elec batch maximum_numbers_of_ctrs
         = Done kept
       ∧ ci_strs_to_bytes kept (size_to_int norb) = Done records
       ∧ (name ∉ denied w → files w' !! name = Some (concat records))
       ∧ ascending merged
       ∧ ascending kept
       ∧ (length kept ≤ maximum_numbers_of_ctrs)%nat
       ∧ ((maximum_numbers_of_ctrs < length merged)%nat →
            length kept = maximum_numbers_of_ctrs
            ∧ merged = kept ++ drop maximum_numbers_of_ctrs merged
            ∧ ∀ x y, x ∈ kept → y ∈ drop maximum_numbers_of_ctrs merged →
                x < y))
  ∧ (∀ m, well_formed batch m →
       (with_hf sqd_data = true → (num_elec < 64)%nat) →
       Z.of_nat norb ≤ INT_MAX - 7 →
       ∃ name w',
         write_alphadets_file sqd_data norb num_elec batch
           maximum_numbers_of_ctrs i_recovery w = (Done name, w')).
Proof.
  split.
  - intros name w' Hrun.
    apply write_alphadets_file_Done in Hrun
      as (kept & records & Hsel & Hrec & Hname & _ & Hfiles & _).
    unfold selected_ci_strs in Hsel.
    destruct (merged_ci_strs sqd_data num_elec batch) as [merged| |] eqn:Hm;
      cbn [mbind outcome_bind] in Hsel; try done.
    injection Hsel as Hkept. rewrite truncate_to_budget_take in Hkept.
    assert (ascending merged) as Hasc.
    { unfold merged_ci_strs in Hm.
      destruct (bitstring_matrix_to_ci_strs batch false) as [ci| |];
        cbn [mbind outcome_bind] in Hm; try done.
      by apply get_unique_ci_strs_with_HF_Done in Hm as [? _]. }
    assert (merged = kept ++ drop maximum_numbers_of_ctrs merged) as Hsplit
      by (by rewrite <- Hkept, take_drop).
    exists merged, kept, records.
    split; [done|]. split.
    { unfold selected_ci_strs. rewrite Hm. cbn [mbind outcome_bind].
      by rewrite truncate_to_budget_take, Hkept. }
    split; [done|]. split.
    { intros Hopen. rewrite Hfiles, decide_False by done.
      apply lookup_insert_eq. }
    split; [done|]. split.
    { unfold ascending in *. rewrite Hsplit in Hasc.
      by apply StronglySorted_app_1_l in Hasc. }
    split; [rewrite <- Hkept, length_take; lia|].
    intros Hbig. split; [rewrite <- Hkept, length_take; lia|].
    split; [done|]. intros x y Hx Hy. unfold ascending in Hasc.
    rewrite Hsplit in Hasc.
    by eapply (StronglySorted_app_1_elem_of _ _ _ _ _ Hasc).
  - intros m Hwf Hne Hnorb.
    destruct (write_alphadets_file_defined sqd_data norb num_elec batch
                maximum_numbers_of_ctrs i_recovery w m Hwf Hne Hnorb)
      as [w' Hw'].
    by do 2 eexists.
Qed.

Lemma serialised_sorted_and_bounded_witness :
  ∃ name w',
    write_alphadets_file example_sqd 4 2 scenario_batch 2 0 example_world
      = (Done name, w').
Proof.
  refine (proj2 (serialised_sorted_and_bounded example_sqd 4 2 scenario_batch
                   2 0 example_world) 4%nat _ _ _).
  - well_formed_by_evaluation.
  - intros _. lia.
  - vm_compute. discriminate.
Defined.

(** ** The worked scenario *)

(** C6: [norb = 4], [num_elec = 2], reference on, closed shell, on the batch
    of the scenario: the merged set is [{1,2,3}]; with budget 10 the file
    holds the three bytes 01 02 03 and nothing is dropped; with budget 2 it
    holds the two bytes 01 02 and the logged count of dropped strings
    is 1. *)
Theorem scenario_norb4 (sqd_data : SQD) (i_recovery : nat) (w : world) :
  with_hf sqd_data = true →
  alphadets_bin_file sqd_data i_recovery ∉ denied w →
  let name := alphadets_bin_file sqd_data i_recovery in
  bitstring_matrix_to_ci_strs scenario_batch false
    = Done ([1; 2; 3], [1; 2; 3])
  ∧ merged_ci_strs sqd_data 2 scenario_batch = Done [1; 2; 3]
  ∧ selected_ci_strs sqd_data 2 scenario_batch 10 = Done [1; 2; 3]
  ∧ ci_strs_to_bytes [1; 2; 3] (size_to_int 4) = Done [[1]; [2]; [3]]
  ∧ truncate_to_budget [1; 2; 3] 10
    = ([1; 2; 3], ["number of unique ci_strs:"; "3"])
  ∧ (∃ w', write_alphadets_file sqd_data 4 2 scenario_batch 10 i_recovery w
             = (Done name, w')
       ∧ files w' !! name = Some [1; 2; 3])
  ∧ selected_ci_strs sqd_data 2 scenario_batch 2 = Done [1; 2]
  ∧ ci_strs_to_bytes [1; 2] (size_to_int 4) = Done [[1]; [2]]
  ∧ truncate_to_budget [1; 2; 3] 2
    = ([1; 2], ["number of unique ci_strs:"; "2"; ", truncated:"; "1"])
  ∧ (∃ w', write_alphadets_file sqd_data 4 2 scenario_batch 2 i_recovery w
             = (Done name, w')
       ∧ files w' !! name = Some [1; 2]
       ∧ (verbose sqd_data = true →
          last (cout w')
          = Some (get_time false w
                  +:+ ": number of unique ci_strs:2, truncated:1"))).
Proof.
  intros Hhf Hopen name.
  assert (merged_ci_strs sqd_data 2 scenario_batch = Done [1; 2; 3]) as Hm.
  { unfold merged_ci_strs, get_unique_ci_strs_with_HF.
    rewrite Hhf. reflexivity. }
  assert (∀ budget,
    write_alphadets_file sqd_data 4 2 scenario_batch budget i_recovery w =
    (Done name,
     write_bytestrings_to_file
       (map (be_bytes 1) (truncate_to_budget [1; 2; 3] budget).1) name
       (log sqd_data (truncate_to_budget [1; 2; 3] budget).2
          (log sqd_data ["number of items in right ci_strs:"; "3"]
             (log sqd_data ["number of items in left ci_strs:"; "3"]
                (log sqd_data ["number of items in a batch: "; "2"] w))))))
    as Hrun.
  { intros budget. unfold write_alphadets_file.
    change (bitstring_matrix_to_ci_strs scenario_batch false)
      with (Done ([1; 2; 3], [1; 2; 3])).
    cbn [fst snd]. unfold get_unique_ci_strs_with_HF. rewrite Hhf.
    change (shl1_u64 2) with (Done 4). cbn [mbind outcome_bind].
    change (std_sort _) with [1; 2; 3].
    destruct (truncate_to_budget [1; 2; 3] budget) as [kept line].
    cbn [fst snd].
    rewrite (ci_strs_to_bytes_spec kept (size_to_int 4))
      by (vm_compute; split; discriminate).
    reflexivity. }
  split; [reflexivity|]. split; [done|].
  split; [unfold selected_ci_strs; rewrite Hm; reflexivity|].
  split; [reflexivity|]. split; [reflexivity|]. split.
  { eexists. split; [apply Hrun|].
    rewrite write_bytestrings_to_file_ok
      by (by rewrite !(proj1 (proj2 (log_files _ _ _)))).
    cbn [files]. by rewrite lookup_insert_eq. }
  split; [unfold selected_ci_strs; rewrite Hm; reflexivity|].
  split; [reflexivity|]. split; [reflexivity|].
  eexists. split; [apply Hrun|]. split.
  - rewrite write_bytestrings_to_file_ok
      by (by rewrite !(proj1 (proj2 (log_files _ _ _)))).
    cbn [files]. by rewrite lookup_insert_eq.
  - intros Hv.
    rewrite write_bytestrings_to_file_ok
      by (by rewrite !(proj1 (proj2 (log_files _ _ _)))).
    cbn [cout]. unfold log at 1. rewrite Hv. cbn [cout].
    rewrite last_snoc. unfold get_time, log. rewrite Hv. reflexivity.
Qed.

Lemma scenario_norb4_witness :
  ∃ w', write_alphadets_file example_sqd 4 2 scenario_batch 2 0 example_world
          = (Done "AlphaDets_run_0_cpp.bin", w')
    ∧ files w' !! "AlphaDets_run_0_cpp.bin" = Some [1; 2].
Proof.
  assert (alphadets_bin_file example_sqd 0 ∉ denied example_world) as Hopen
    by (unfold example_world; cbn [denied]; apply not_elem_of_empty).
  destruct (scenario_norb4 example_sqd 0 example_world eq_refl Hopen)
    as (_ & _ & _ & _ & _ & _ & _ & _ & _ & w' & Hrun & Hfile & _).
  exists w'. split; assumption.
Defined.

(** ** Failure to open the output file *)

(** On the scenario batch, with the artifact path denied, the call returns
    the file name all the same, having written nothing. *)
Lemma open_failure_surfaces_counterexample :
  alphadets_bin_file example_sqd 0 ∈ denied denied_world
  ∧ (write_alphadets_file example_sqd 4 2 scenario_batch 10 0 denied_world).1
    = Done "AlphaDets_run_0_cpp.bin"
  ∧ files
      (write_alphadets_file example_sqd 4 2 scenario_batch 10 0
         denied_world).2 = ∅
  ∧ ¬ open_failure_surfaces example_sqd 4 2 scenario_batch 10 0 denied_world.
Proof.
  assert (alphadets_bin_file example_sqd 0 ∈ denied denied_world) as Hin
    by (vm_compute; reflexivity).
  split; [done|]. split; [by vm_compute|]. split; [by vm_compute|].
  intros H.
  apply (H Hin "AlphaDets_run_0_cpp.bin"
           (write_alphadets_file example_sqd 4 2 scenario_batch 10 0
              denied_world).2).
  by vm_compute.
Qed.

Lemma write_alphadets_file_disk (sqd_data : SQD) (norb num_elec : nat)
    (batch : list (list bool)) (budget i_recovery : nat) (w : world) :
  alphadets_bin_file sqd_data i_recovery ∈ denied w →
  files (write_alphadets_file sqd_data norb num_elec batch budget
           i_recovery w).2 = files w.
Proof.
  intros Hin. unfold write_alphadets_file.
  repeat first
    [ progress cbn [fst snd]
    | rewrite (proj1 (log_files _ _ _))
    | match goal with
      | |- context [match ?o with Done _ => _ | Throws _ => _
                                | Undefined => _ end] => destruct o
      | |- context [let '(_, _) := ?p in _] => destruct p
      end ];
    try done.
  rewrite write_bytestrings_to_file_denied
    by (by rewrite !(proj1 (proj2 (log_files _ _ _)))).
  cbn [files]. by rewrite !(proj1 (log_files _ _ _)).
Qed.

(** C8, amended: when the artifact cannot be opened,
    [write_bytestrings_to_file] writes one line, "Error: Could not open
    file" and the name, on the error stream and returns, with no file
    written or created and no second attempt; [write_alphadets_file] leaves
    the disk as it was and, whenever it returns, returns the artifact name
    as after a successful write, which it does on every well-formed
    batch. *)
Theorem open_failure_reported_on_cerr (sqd_data : SQD) (norb num_elec : nat)
    (batch : list (list bool)) (budget i_recovery : nat) (w : world) :
  alphadets_bin_file sqd_data i_recovery ∈ denied w →
  let name := alphadets_bin_file sqd_data i_recovery in
  (∀ byte_strings,
     write_bytestrings_to_file byte_strings name w
     = mkWorld (files w) (denied w) (cout w)
         (cerr w ++ ["Error: Could not open file " +:+ name]) (clock w))
  ∧ files (write_alphadets_file sqd_data norb num_elec batch budget
             i_recovery w).2 = files w
  ∧ (∀ name' w',
       write_alphadets_file sqd_data norb num_elec batch budget i_recovery w
         = (Done name', w') →
       name' = name
       ∧ cerr w' = cerr w ++ ["Error: Could not open file " +:+ name])
  ∧ (∀ m, well_formed batch m →
       (with_hf sqd_data = true → (num_elec < 64)%nat) →
       Z.of_nat norb ≤ INT_MAX - 7 →
       ∃ w',
         write_alphadets_file sqd_data norb num_elec batch budget
           i_recovery w = (Done name, w')).
Proof.
  intros Hin name. split; [|split; [|split]].
  - intros byte_strings. by apply write_bytestrings_to_file_denied.
  - by apply write_alphadets_file_disk.
  - intros name' w' Hrun.
    apply write_alphadets_file_Done in Hrun
      as (_ & _ & _ & _ & -> & _ & _ & Hcerr).
    split; [done|]. by rewrite decide_True in Hcerr.
  - intros m Hwf Hne Hnorb.
    by apply (write_alphadets_file_defined _ _ _ _ _ _ _ m).
Qed.

Lemma open_failure_reported_on_cerr_witness :
  files (write_alphadets_file example_sqd 4 2 scenario_batch 10 0
           denied_world).2 = files denied_world.
Proof.
  refine (proj1 (proj2 (open_failure_reported_on_cerr example_sqd 4 2
                          scenario_batch 10 0 denied_world _))).
  vm_compute. reflexivity.
Defined.

(** ** The empty batch *)

(** C9, the code at the empty batch: [bitstring_matrix[0]] is read past the
    end of the vector, which is undefined behaviour; no exception is
    thrown and no error is returned, by either function. Nothing after the
    read checks the batch either: whatever [norb] the read yields, the
    loops over an empty batch end at once with two empty vectors. *)
Theorem empty_batch_undefined (sqd_data : SQD) (norb num_elec : nat)
    (budget i_recovery : nat) (w : world) (open_shell : bool) :
  bitstring_matrix_to_ci_strs [] open_shell = Undefined
  ∧ (write_alphadets_file sqd_data norb num_elec [] budget i_recovery w).1
    = Undefined
  ∧ (∀ what,
       (write_alphadets_file sqd_data norb num_elec [] budget i_recovery w).1
       ≠ Throws what)
  ∧ (∀ norb0, ci_str_loops [] norb0 = Done ([], [])).
Proof.
  split; [done|]. split; [done|]. split; [by intros what|done].
Qed.


(** * Further properties of the code *)

(** ** The serialiser at its bounds *)

(** X1: [integer_to_bytes] does not reject an [norb] that is not positive:
    from -14 to 0 the record is empty, from -15 down the vector constructor
    throws [std::length_error], and above [INT_MAX - 7] the addition
    [norb + 7] overflows. *)
Theorem integer_to_bytes_bounds (n norb : Z) :
  (-14 ≤ norb ≤ 0 → integer_to_bytes n norb = Done [])
  ∧ (norb ≤ -15 → integer_to_bytes n norb = Throws "std::length_error")
  ∧ (INT_MAX - 7 < norb → integer_to_bytes n norb = Undefined).
Proof.
  unfold integer_to_bytes, INT_MAX. split; [|split]; intros H.
  - rewrite decide_False by lia.
    assert (Z.quot (norb + 7) 8 = 0) as ->
      by (apply Z.quot_small_iff; lia).
    by rewrite decide_False by lia.
  - rewrite decide_False by lia.
    assert (Z.quot (norb + 7) 8 < 0) as Hneg.
    { replace (norb + 7) with (- (- (norb + 7))) by lia.
      rewrite Z.quot_opp_l by lia.
      rewrite Z.quot_div_nonneg by lia.
      assert (0 < (- (norb + 7)) / 8) by (apply Z.div_str_pos; lia). lia. }
    by rewrite decide_True by done.
  - by rewrite decide_True by lia.
Qed.

Lemma integer_to_bytes_bounds_witness :
  integer_to_bytes 5 0 = Done []
  ∧ integer_to_bytes 5 (-15) = Throws "std::length_error".
Proof.
  destruct (integer_to_bytes_bounds 5 0) as (H0 & _ & _).
  destruct (integer_to_bytes_bounds 5 (-15)) as (_ & H15 & _).
  split; [apply H0; lia|apply H15; lia].
Defined.

(** X2: two values are serialised to the same record exactly when they agree
    modulo [256^ceil(norb/8)]; below that power distinct CI strings give
    distinct records. *)
Theorem integer_to_bytes_collide (norb n1 n2 : Z) :
  0 ≤ norb ≤ INT_MAX - 7 →
  integer_to_bytes n1 norb = integer_to_bytes n2 norb
  ↔ n1 mod 256 ^ Z.of_nat (record_bytes norb)
    = n2 mod 256 ^ Z.of_nat (record_bytes norb).
Proof.
  intros Hn. rewrite !integer_to_bytes_spec by done. split.
  - intros [= H]. apply (f_equal be_value) in H.
    by rewrite !be_value_be_bytes in H.
  - intros H. f_equal.
    rewrite <- (be_bytes_mod _ n1), <- (be_bytes_mod _ n2). by rewrite H.
Qed.

Lemma integer_to_bytes_collide_witness :
  integer_to_bytes 3 4 = integer_to_bytes 259 4.
Proof.
  apply (integer_to_bytes_collide 4 3 259); [vm_compute; split; discriminate|].
  reflexivity.
Defined.

Lemma decode_records_concat (k : nat) (ci_strs : list Z) :
  Forall (fun c => 0 ≤ c < 256 ^ Z.of_nat k) ci_strs →
  decode_records k (length ci_strs) (concat (map (be_bytes k) ci_strs))
  = ci_strs.
Proof.
  induction 1 as [|c cs Hc _ IH]; [done|].
  cbn [map concat length decode_records].
  rewrite take_app_length' by (by rewrite be_bytes_length).
  rewrite drop_app_length' by (by rewrite be_bytes_length).
  rewrite be_value_be_bytes, Z.mod_small by done. by rewrite IH.
Qed.

(** X3: what [ci_strs_to_bytes] and [write_bytestrings_to_file] put in the
    file can be read back: cut into records of [ceil(norb/8)] bytes and read
    big-endian, the content gives the CI strings again, in order, as long as
    each is below [256^ceil(norb/8)]. *)
Theorem artifact_round_trip (norb : Z) (ci_strs : list Z) (filename : string)
    (w : world) :
  0 ≤ norb ≤ INT_MAX - 7 →
  Forall (fun c => 0 ≤ c < 256 ^ Z.of_nat (record_bytes norb)) ci_strs →
  filename ∉ denied w →
  ∃ records content,
    ci_strs_to_bytes ci_strs norb = Done records
    ∧ files (write_bytestrings_to_file records filename w) !! filename
      = Some content
    ∧ decode_records (record_bytes norb) (length ci_strs) content = ci_strs.
Proof.
  intros Hn Hcs Hopen. do 2 eexists.
  split; [by apply ci_strs_to_bytes_spec|].
  rewrite write_bytestrings_to_file_ok by done. cbn [files].
  split; [apply lookup_insert_eq|]. by apply decode_records_concat.
Qed.

Lemma artifact_round_trip_witness :
  ∃ records content,
    ci_strs_to_bytes [1; 300; 70000] 20 = Done records
    ∧ files (write_bytestrings_to_file records "a.bin" example_world)
        !! "a.bin" = Some content
    ∧ decode_records 3 3 content = [1; 300; 70000].
Proof.
  refine (artifact_round_trip 20 [1; 300; 70000] "a.bin" example_world _ _ _).
  - vm_compute. split; discriminate.
  - repeat constructor; vm_compute; try discriminate; reflexivity.
  - unfold example_world. cbn [denied]. apply not_elem_of_empty.
Defined.

(** X4: on a path that opens, [write_bytestrings_to_file] replaces whatever
    the file held (a second write leaves only the second content), creates
    the file even when there is nothing to write, and touches no other file
    and neither stream. *)
Theorem write_bytestrings_to_file_overwrites (first second : list (list Z))
    (filename : string) (w : world) :
  filename ∉ denied w →
  let w1 := write_bytestrings_to_file first filename w in
  let w2 := write_bytestrings_to_file second filename w1 in
  files w2 !! filename = Some (concat second)
  ∧ files w2 = files (write_bytestrings_to_file second filename w)
  ∧ files (write_bytestrings_to_file [] filename w) !! filename = Some []
  ∧ (∀ other, other ≠ filename → files w2 !! other = files w !! other)
  ∧ cout w2 = cout w ∧ cerr w2 = cerr w ∧ denied w2 = denied w.
Proof.
  intros Hopen w1 w2. unfold w2, w1.
  rewrite (write_bytestrings_to_file_ok first) by done.
  rewrite !write_bytestrings_to_file_ok by done. cbn [files cout cerr denied].
  split; [apply lookup_insert_eq|]. split; [apply insert_insert_eq|].
  split; [apply lookup_insert_eq|]. split; [|done].
  intros other Hne. by rewrite !lookup_insert_ne.
Qed.

Lemma write_bytestrings_to_file_overwrites_witness :
  files (write_bytestrings_to_file [[7]] "a.bin"
           (write_bytestrings_to_file [[1; 2]; [3]] "a.bin" example_world))
    !! "a.bin" = Some [7].
Proof.
  refine (proj1 (write_bytestrings_to_file_overwrites [[1; 2]; [3]] [[7]]
                   "a.bin" example_world _)).
  unfold example_world. cbn [denied]. apply not_elem_of_empty.
Defined.

(** ** When bitstring_matrix_to_ci_strs returns *)

Lemma sector_loop_readable_from (row : list bool) (off config : nat)
    (m : nat) :
  ∀ (k : nat) (v : list Z) (a : Z),
    (off + k + m ≤ length row)%nat →
    (∀ i, (k ≤ i < k + m)%nat → (64 ≤ i)%nat →
       row !! (off + i)%nat = Some false) →
    v !! config = Some a →
    0 ≤ a < 2 ^ Z.of_nat k →
    fold_left (accumulate_bit row off config) (seq k m) (Done v) =
    Done (<[config :=
              a + 2 ^ Z.of_nat k * bits_value (take m (drop (off + k) row))]> v).
Proof.
  induction m as [|m IH]; intros k v a Hlen Hhigh Hv Ha.
  - simpl. rewrite Z.mul_0_r, Z.add_0_r. by rewrite list_insert_id.
  - assert (is_Some (row !! (off + k)%nat)) as [b Hb]
      by (apply lookup_lt_is_Some; lia).
    rewrite (drop_S _ _ _ Hb). cbn [seq fold_left take bits_value].
    assert (config < length v)%nat as Hc by (eapply lookup_lt_Some; eauto).
    assert (2 ^ Z.of_nat (S k) = 2 * 2 ^ Z.of_nat k) as Hpow
      by (rewrite Nat2Z.inj_succ, Z.pow_succ_r; lia).
    unfold accumulate_bit at 2. cbn [mbind outcome_bind].
    rewrite (vec_at_Some row (k + off) b) by (by rewrite Nat.add_comm).
    cbn [mbind outcome_bind]. destruct b.
    + assert (k < 64)%nat as Hk.
      { destruct (decide (k < 64)%nat) as [|Hge]; [done|].
        rewrite (Hhigh k) in Hb by lia. discriminate. }
      assert (2 ^ Z.of_nat (S k) ≤ 2 ^ 64) as Hle
        by (apply Z.pow_le_mono_r; lia).
      unfold pow2_u64. rewrite decide_True by lia. cbn [mbind outcome_bind].
      rewrite (vec_at_Some v config a) by done. cbn [mbind outcome_bind].
      assert (wrap64 (a + 2 ^ Z.of_nat k) = a + 2 ^ Z.of_nat k) as ->
        by (unfold wrap64; apply Z.mod_small; lia).
      rewrite (IH (S k) _ (a + 2 ^ Z.of_nat k)); try lia.
      * rewrite list_insert_insert_eq. f_equal. f_equal.
        replace (off + S k)%nat with (S (off + k)) by lia.
        simpl Z.b2z. lia.
      * intros i Hi Hi64. apply Hhigh; lia.
      * by apply list_lookup_insert_eq.
    + rewrite (IH (S k) v a); try lia; [| |done].
      * f_equal. f_equal. replace (off + S k)%nat with (S (off + k)) by lia.
        simpl Z.b2z. lia.
      * intros i Hi Hi64. apply Hhigh; lia.
Qed.

Lemma sector_loop_readable (row : list bool) (off config norb : nat)
    (ci_str : list Z) :
  (off + norb ≤ length row)%nat →
  (∀ i, (64 ≤ i < norb)%nat → row !! (off + i)%nat = Some false) →
  ci_str !! config = Some 0 →
  sector_loop row off config norb ci_str =
  Done (<[config := bits_value (take norb (drop off row))]> ci_str).
Proof.
  intros Hlen Hhigh Hc. unfold sector_loop.
  rewrite (sector_loop_readable_from row off config norb 0 ci_str 0);
    [|lia| |done|simpl; lia].
  - rewrite Nat.add_0_r. simpl (2 ^ Z.of_nat 0). do 2 f_equal. lia.
  - intros i Hi Hi64. apply Hhigh. lia.
Qed.

Lemma config_loop_readable_from (batch : list (list bool)) (norb : nat)
    (m : nat) :
  ∀ k : nat,
    Forall (readable norb) batch →
    (k + m)%nat = length batch →
    fold_left (config_step batch norb) (seq k m)
      (Done (map (low_half norb) (take k batch) ++ replicate m 0,
             map (high_half norb) (take k batch) ++ replicate m 0)) =
    Done (map (low_half norb) batch, map (high_half norb) batch).
Proof.
  induction m as [|m IH]; intros k Hrows Hlen.
  - simpl. rewrite !app_nil_r, take_ge by lia. done.
  - destruct (lookup_lt_is_Some_2 batch k ltac:(lia)) as [row Hrow].
    assert (readable norb row) as [Hrl Hhigh]
      by (rewrite Forall_forall in Hrows; eapply Hrows, list_elem_of_lookup_2;
          eauto).
    assert (length (take k batch) = k) as Htk by (rewrite length_take; lia).
    cbn [seq fold_left]. unfold config_step at 2. cbn [mbind outcome_bind].
    rewrite (vec_at_Some batch k row) by done. cbn [mbind outcome_bind].
    rewrite sector_loop_readable; [|lia|intros i Hi; by apply Hhigh|].
    2:{ rewrite lookup_app_r by (rewrite length_map; lia).
        rewrite length_map, Htk, Nat.sub_diag. done. }
    cbn [mbind outcome_bind].
    rewrite sector_loop_readable; [|lia|intros i Hi; by apply Hhigh|].
    2:{ rewrite lookup_app_r by (rewrite length_map; lia).
        rewrite length_map, Htk, Nat.sub_diag. done. }
    cbn [mbind outcome_bind].
    rewrite !insert_app_r_alt by (rewrite length_map; lia).
    rewrite !length_map, Htk, Nat.sub_diag. cbn [replicate insert list_insert].
    rewrite drop_0. fold (low_half norb row). fold (high_half norb row).
    rewrite <- (IH (S k)) by (done || lia).
    rewrite (take_S_r batch k row) by done.
    rewrite !map_app. cbn [map]. by rewrite <- !app_assoc.
Qed.

Lemma bitstring_matrix_to_ci_strs_readable (batch : list (list bool))
    (row0 : list bool) (open_shell : bool) :
  batch !! 0%nat = Some row0 →
  Forall (readable (length row0 / 2)) batch →
  bitstring_matrix_to_ci_strs batch open_shell
  = Done (ci_strs_of_halves (length row0 / 2) batch open_shell).
Proof.
  intros H0 Hrows. unfold bitstring_matrix_to_ci_strs.
  rewrite (vec_at_Some batch 0 row0) by done. cbn [mbind outcome_bind].
  unfold ci_str_loops.
  pose proof (config_loop_readable_from batch (length row0 / 2)
                (length batch) 0 Hrows eq_refl) as Hloop.
  rewrite take_0 in Hloop. cbn [map app] in Hloop. rewrite Hloop.
  reflexivity.
Qed.

Lemma sector_fold_failed (row : list bool) (off config : nat) (l : list nat) :
  fold_left (accumulate_bit row off config) l Undefined = Undefined
  ∧ ∀ e, fold_left (accumulate_bit row off config) l (Throws e) = Throws e.
Proof. induction l as [|i l IH]; [done|]. cbn [fold_left]. apply IH. Qed.

Lemma accumulate_bit_Done_inv (row : list bool) (off config : nat)
    (v : list Z) (i : nat) :
  match accumulate_bit row off config (Done v) i with
  | Done _ => ∃ b, row !! (i + off)%nat = Some b ∧ (b = true → (i < 64)%nat)
  | Throws _ => False
  | Undefined => True
  end.
Proof.
  unfold accumulate_bit, vec_at, pow2_u64. cbn [mbind outcome_bind].
  destruct (row !! (i + off)%nat) as [[|]|]; cbn [mbind outcome_bind];
    [|by exists false|done].
  case_decide; cbn [mbind outcome_bind]; [|done].
  destruct (v !! config); cbn [mbind outcome_bind]; [|done].
  by exists true.
Qed.

Lemma sector_fold_Done_inv (row : list bool) (off config : nat) (m : nat) :
  ∀ (k : nat) (v : list Z),
    match fold_left (accumulate_bit row off config) (seq k m) (Done v) with
    | Done _ =>
        ∀ i, (k ≤ i < k + m)%nat →
          ∃ b, row !! (i + off)%nat = Some b ∧ (b = true → (i < 64)%nat)
    | Throws _ => False
    | Undefined => True
    end.
Proof.
  induction m as [|m IH]; intros k v; cbn [seq fold_left].
  - intros i Hi. lia.
  - pose proof (accumulate_bit_Done_inv row off config v k) as Hstep.
    destruct (accumulate_bit row off config (Done v) k) as [v1| |].
    + specialize (IH (S k) v1).
      destruct (fold_left _ (seq (S k) m) (Done v1)); [|done..].
      intros i Hi. destruct (decide (i = k)) as [->|]; [done|].
      apply IH. lia.
    + done.
    + by rewrite (proj1 (sector_fold_failed _ _ _ _)).
Qed.

Lemma config_fold_failed (batch : list (list bool)) (norb : nat)
    (l : list nat) :
  fold_left (config_step batch norb) l Undefined = Undefined
  ∧ ∀ e, fold_left (config_step batch norb) l (Throws e) = Throws e.
Proof. induction l as [|i l IH]; [done|]. cbn [fold_left]. apply IH. Qed.

Lemma config_step_Done_inv (batch : list (list bool)) (norb : nat)
    (st : list Z * list Z) (config : nat) :
  match config_step batch norb (Done st) config with
  | Done _ => ∃ row, batch !! config = Some row ∧ readable norb row
  | Throws _ => False
  | Undefined => True
  end.
Proof.
  unfold config_step, vec_at, sector_loop. destruct st as [l r].
  cbn [mbind outcome_bind].
  destruct (batch !! config) as [row|]; cbn [mbind outcome_bind]; [|done].
  pose proof (sector_fold_Done_inv row 0 config norb 0 l) as Hl.
  destruct (fold_left _ (seq 0 norb) (Done l)) as [l'| |];
    cbn [mbind outcome_bind]; [|done..].
  pose proof (sector_fold_Done_inv row norb config norb 0 r) as Hr.
  destruct (fold_left _ (seq 0 norb) (Done r)) as [r'| |];
    cbn [mbind outcome_bind]; [|done..].
  exists row. split; [done|]. split.
  - destruct norb as [|n]; [lia|].
    destruct (Hr n ltac:(lia)) as (b & Hb & _).
    apply lookup_lt_Some in Hb. lia.
  - intros i Hi. split.
    + destruct (Hl i ltac:(lia)) as (b & Hb & H64).
      rewrite Nat.add_0_r in Hb. rewrite Hb. f_equal.
      destruct b; [|done]. specialize (H64 eq_refl). lia.
    + destruct (Hr i ltac:(lia)) as (b & Hb & H64).
      rewrite (Nat.add_comm norb i), Hb. f_equal.
      destruct b; [|done]. specialize (H64 eq_refl). lia.
Qed.

Lemma config_fold_Done_inv (batch : list (list bool)) (norb : nat) (m : nat) :
  ∀ (k : nat) (st : list Z * list Z),
    match fold_left (config_step batch norb) (seq k m) (Done st) with
    | Done _ =>
        ∀ config, (k ≤ config < k + m)%nat →
          ∃ row, batch !! config = Some row ∧ readable norb row
    | Throws _ => False
    | Undefined => True
    end.
Proof.
  induction m as [|m IH]; intros k st; cbn [seq fold_left].
  - intros i Hi. lia.
  - pose proof (config_step_Done_inv batch norb st k) as Hstep.
    destruct (config_step batch norb (Done st) k) as [st1| |].
    + specialize (IH (S k) st1).
      destruct (fold_left _ (seq (S k) m) (Done st1)); [|done..].
      intros i Hi. destruct (decide (i = k)) as [->|]; [done|].
      apply IH. lia.
    + done.
    + by rewrite (proj1 (config_fold_failed _ _ _)).
Qed.

Ltac readable_by_evaluation :=
  repeat constructor; intros; simpl in *; lia.

(** X5: [bitstring_matrix_to_ci_strs] returns exactly on the batches that
    are not empty and whose configurations all have [2 * norb] bits at least
    and no bit set at position 64 or above of a half, [norb] being half the
    length of the first configuration; it then returns the sets of the
    values of the halves. On every other batch its behaviour is undefined;
    it never throws. *)
Theorem bitstring_matrix_to_ci_strs_returns_iff (batch : list (list bool))
    (open_shell : bool) :
  (∀ row0, batch !! 0%nat = Some row0 →
     Forall (readable (length row0 / 2)) batch →
     bitstring_matrix_to_ci_strs batch open_shell
     = Done (ci_strs_of_halves (length row0 / 2) batch open_shell))
  ∧ (∀ res, bitstring_matrix_to_ci_strs batch open_shell = Done res →
       ∃ row0, batch !! 0%nat = Some row0
         ∧ Forall (readable (length row0 / 2)) batch)
  ∧ (∀ what, bitstring_matrix_to_ci_strs batch open_shell ≠ Throws what)
  ∧ ((∀ row0, batch !! 0%nat = Some row0 →
        ¬ Forall (readable (length row0 / 2)) batch) →
     bitstring_matrix_to_ci_strs batch open_shell = Undefined).
Proof.
  assert (match bitstring_matrix_to_ci_strs batch open_shell with
          | Done _ => ∃ row0, batch !! 0%nat = Some row0
                        ∧ Forall (readable (length row0 / 2)) batch
          | Throws _ => False
          | Undefined => True
          end) as Hinv.
  { unfold bitstring_matrix_to_ci_strs, vec_at, ci_str_loops.
    destruct (batch !! 0%nat) as [row0|] eqn:H0; cbn [mbind outcome_bind];
      [|done].
    pose proof (config_fold_Done_inv batch (length row0 / 2) (length batch) 0
                  (replicate (length batch) 0, replicate (length batch) 0))
      as Hfold.
    destruct (fold_left _ (seq 0 (length batch)) _) as [[l r]| |];
      cbn [mbind outcome_bind]; [|done..].
    exists row0. split; [done|]. apply Forall_forall. intros row Hrow.
    apply list_elem_of_lookup in Hrow as [c Hc].
    destruct (Hfold c) as (row' & Hrow' & Hread).
    { apply lookup_lt_Some in Hc. lia. }
    congruence. }
  split; [intros row0 H0 Hrows; by apply bitstring_matrix_to_ci_strs_readable|].
  split; [intros res Hres; by rewrite Hres in Hinv|].
  split; [intros what Hwhat; by rewrite Hwhat in Hinv|].
  intros Hbad.
  destruct (bitstring_matrix_to_ci_strs batch open_shell); [|done..].
  destruct Hinv as (row0 & H0 & Hrows). by destruct (Hbad row0 H0).
Qed.

Lemma bitstring_matrix_to_ci_strs_returns_iff_witness :
  bitstring_matrix_to_ci_strs scenario_batch true
  = Done (ci_strs_of_halves 4 scenario_batch true).
Proof.
  refine (proj1 (bitstring_matrix_to_ci_strs_returns_iff scenario_batch true)
            [true; true; false; false; true; false; false; false] eq_refl _).
  readable_by_evaluation.
Defined.

Lemma halves_of_take (norb : nat) (row : list bool) :
  low_half norb (take (2 * norb) row) = low_half norb row
  ∧ high_half norb (take (2 * norb) row) = high_half norb row.
Proof.
  unfold low_half, high_half. split.
  - rewrite take_take. by replace (norb `min` (2 * norb))%nat with norb by lia.
  - rewrite !take_drop_commute, take_take.
    by replace ((norb + norb) `min` (2 * norb))%nat with (norb + norb)%nat
      by lia.
Qed.

Lemma readable_take (norb : nat) (row : list bool) :
  readable norb row → readable norb (take (2 * norb) row).
Proof.
  intros [Hlen Hhigh]. split; [rewrite length_take; lia|].
  intros i Hi. rewrite !lookup_take_lt by lia. by apply Hhigh.
Qed.

(** X6: only the first [2 * norb] bits of a configuration count, [norb] being
    half the length of the first one (rounded down): cutting every
    configuration to that length changes nothing, so the last bit of an odd
    length and whatever a longer configuration carries are ignored without
    notice. *)
Theorem extra_bits_ignored (batch : list (list bool)) (row0 : list bool)
    (open_shell : bool) :
  batch !! 0%nat = Some row0 →
  Forall (readable (length row0 / 2)) batch →
  bitstring_matrix_to_ci_strs batch open_shell
  = bitstring_matrix_to_ci_strs
      (map (take (2 * (length row0 / 2))) batch) open_shell.
Proof.
  intros H0 Hrows. set (norb := (length row0 / 2)%nat) in *.
  assert (readable norb row0) as [Hlen0 _]
    by (rewrite Forall_forall in Hrows; eapply Hrows, list_elem_of_lookup_2;
        eauto).
  assert (length (take (2 * norb) row0) / 2 = norb)%nat as Hnorb.
  { rewrite length_take, Nat.min_l by lia.
    rewrite Nat.mul_comm. apply Nat.div_mul. lia. }
  rewrite (bitstring_matrix_to_ci_strs_readable batch row0) by done.
  rewrite (bitstring_matrix_to_ci_strs_readable _ (take (2 * norb) row0)).
  - rewrite Hnorb. fold norb. unfold ci_strs_of_halves.
    rewrite !map_map.
    rewrite (map_ext (fun row => low_half norb (take (2 * norb) row))
               (low_half norb))
      by (intros row; apply halves_of_take).
    rewrite (map_ext (fun row => high_half norb (take (2 * norb) row))
               (high_half norb))
      by (intros row; apply halves_of_take).
    done.
  - by rewrite list_lookup_fmap, H0.
  - rewrite Hnorb. apply Forall_fmap. eapply Forall_impl; [exact Hrows|].
    intros row. apply readable_take.
Qed.

Lemma extra_bits_ignored_witness :
  bitstring_matrix_to_ci_strs
    [[true; false; true; true; true]; [false; true; true; false; false; true]]
    true
  = bitstring_matrix_to_ci_strs
      [[true; false; true; true]; [false; true; true; false]] true.
Proof.
  refine (extra_bits_ignored
            [[true; false; true; true; true];
             [false; true; true; false; false; true]]
            [true; false; true; true; true] true eq_refl _).
  readable_by_evaluation.
Defined.

Lemma ascending_ext (l1 l2 : list Z) :
  ascending l1 → ascending l2 → (∀ x, x ∈ l1 ↔ x ∈ l2) → l1 = l2.
Proof.
  unfold ascending. revert l2.
  induction l1 as [|a l1 IH]; intros [|b l2] H1 H2 Hx.
  - done.
  - pose proof (proj2 (Hx b) (list_elem_of_here _ _)) as Hb.
    by apply elem_of_nil in Hb.
  - pose proof (proj1 (Hx a) (list_elem_of_here _ _)) as Ha.
    by apply elem_of_nil in Ha.
  - apply StronglySorted_inv in H1 as [H1 Ha].
    apply StronglySorted_inv in H2 as [H2 Hb].
    rewrite Forall_forall in Ha, Hb.
    assert (a = b) as ->.
    { pose proof (proj1 (Hx a) (list_elem_of_here _ _)) as Hab.
      pose proof (proj2 (Hx b) (list_elem_of_here _ _)) as Hba.
      apply elem_of_cons in Hab as [|Hab]; [done|].
      apply elem_of_cons in Hba as [|Hba]; [done|].
      specialize (Ha _ Hba). specialize (Hb _ Hab). lia. }
    f_equal. apply IH; [done..|]. intros x. split; intros Hin.
    + pose proof (proj1 (Hx x) (list_elem_of_further _ _ _ Hin)) as Hx'.
      apply elem_of_cons in Hx' as [->|]; [|done].
      specialize (Ha _ Hin). lia.
    + pose proof (proj2 (Hx x) (list_elem_of_further _ _ _ Hin)) as Hx'.
      apply elem_of_cons in Hx' as [->|]; [|done].
      specialize (Hb _ Hin). lia.
Qed.

Lemma set_of_range_ext (xs ys : list Z) :
  (∀ x, x ∈ xs ↔ x ∈ ys) → set_of_range xs = set_of_range ys.
Proof.
  intros H. apply ascending_ext; [apply set_of_range_ascending..|].
  intros x. by rewrite !set_of_range_elem.
Qed.

(** X7: the result does not depend on the order of the configurations in the
    batch nor on how often each occurs: two well-formed batches with the
    same configurations give the same pair. *)
Theorem batch_order_irrelevant (batch1 batch2 : list (list bool))
    (norb : nat) (open_shell : bool) :
  well_formed batch1 norb →
  well_formed batch2 norb →
  (∀ row, row ∈ batch1 ↔ row ∈ batch2) →
  bitstring_matrix_to_ci_strs batch1 open_shell
  = bitstring_matrix_to_ci_strs batch2 open_shell.
Proof.
  intros Hwf1 Hwf2 Hrows.
  rewrite (bitstring_matrix_to_ci_strs_spec batch1 norb) by done.
  rewrite (bitstring_matrix_to_ci_strs_spec batch2 norb) by done.
  cbn zeta.
  assert (∀ f : list bool → Z,
            set_of_range (map f batch1) = set_of_range (map f batch2)) as Hf.
  { intros f. apply set_of_range_ext. intros x.
    rewrite !list_elem_of_fmap. split; intros (row & -> & Hrow);
      exists row; (split; [done|]); by apply Hrows. }
  by rewrite !Hf.
Qed.

Lemma batch_order_irrelevant_witness :
  bitstring_matrix_to_ci_strs [[true; false]; [false; true]; [true; false]]
    true
  = bitstring_matrix_to_ci_strs [[false; true]; [true; false]] true.
Proof.
  refine (batch_order_irrelevant _ _ 1 true _ _ _).
  - well_formed_by_evaluation.
  - well_formed_by_evaluation.
  - intros row. rewrite !elem_of_cons, !elem_of_nil. tauto.
Defined.

(** ** Invariants of the returned CI strings *)

Lemma halves_range (norb : nat) (row : list bool) :
  0 ≤ low_half norb row < 2 ^ Z.of_nat norb
  ∧ 0 ≤ high_half norb row < 2 ^ Z.of_nat norb.
Proof.
  assert (∀ b : list bool, (length b ≤ norb)%nat →
            0 ≤ bits_value b < 2 ^ Z.of_nat norb) as Hb.
  { intros b Hlen. pose proof (bits_value_range b).
    assert (2 ^ Z.of_nat (length b) ≤ 2 ^ Z.of_nat norb)
      by (apply Z.pow_le_mono_r; lia).
    lia. }
  unfold low_half, high_half.
  split; apply Hb; rewrite length_take; lia.
Qed.

Lemma ci_strs_of_halves_elem (norb : nat) (batch : list (list bool))
    (open_shell : bool) (x : Z) :
  x ∈ (ci_strs_of_halves norb batch open_shell).1
  ∨ x ∈ (ci_strs_of_halves norb batch open_shell).2 →
  ∃ row, row ∈ batch ∧ (x = low_half norb row ∨ x = high_half norb row).
Proof.
  unfold ci_strs_of_halves. cbn [fst snd].
  destruct open_shell;
    rewrite ?combined_elem, !set_of_range_elem, !list_elem_of_fmap;
    intros H; decompose [or] H; clear H;
    match goal with H : ∃ _, _ |- _ => destruct H as (row & -> & Hrow) end;
    exists row; auto.
Qed.

(** X8: every CI string [bitstring_matrix_to_ci_strs] returns on a
    well-formed batch lies in [[0, 2^norb)], in either mode. *)
Theorem ci_strs_in_range (batch : list (list bool)) (norb : nat)
    (open_shell : bool) :
  well_formed batch norb →
  ∃ first second,
    bitstring_matrix_to_ci_strs batch open_shell = Done (first, second)
    ∧ Forall (fun c => 0 ≤ c < 2 ^ Z.of_nat norb) first
    ∧ Forall (fun c => 0 ≤ c < 2 ^ Z.of_nat norb) second.
Proof.
  intros Hwf.
  rewrite (bitstring_matrix_to_ci_strs_spec batch norb) by done. cbn zeta.
  do 2 eexists. split; [done|].
  change (Forall (fun c => 0 ≤ c < 2 ^ Z.of_nat norb)
            (ci_strs_of_halves norb batch open_shell).1
          ∧ Forall (fun c => 0 ≤ c < 2 ^ Z.of_nat norb)
              (ci_strs_of_halves norb batch open_shell).2).
  split; apply Forall_forall; intros x Hx;
    destruct (ci_strs_of_halves_elem norb batch open_shell x ltac:(auto))
      as (row & _ & [-> | ->]); apply halves_range.
Qed.

Lemma ci_strs_in_range_witness :
  ∃ first second,
    bitstring_matrix_to_ci_strs scenario_batch false = Done (first, second)
    ∧ Forall (fun c => 0 ≤ c < 2 ^ 4) first.
Proof.
  destruct (ci_strs_in_range scenario_batch 4 false
              ltac:(well_formed_by_evaluation))
    as (first & second & Hrun & Hfirst & _).
  exists first, second. split; assumption.
Defined.

Lemma set_insert_length (x : Z) (s : list Z) :
  (length (set_insert x s) ≤ S (length s))%nat.
Proof.
  induction s as [|y s IH]; cbn [set_insert length]; [lia|].
  destruct (x <? y); cbn [length]; [lia|].
  destruct (x =? y); cbn [length]; lia.
Qed.

Lemma set_insert_range_length (s xs : list Z) :
  (length (set_insert_range s xs) ≤ length s + length xs)%nat.
Proof.
  unfold set_insert_range. revert s.
  induction xs as [|x xs IH]; intros s; cbn [fold_left length]; [lia|].
  specialize (IH (set_insert x s)). pose proof (set_insert_length x s). lia.
Qed.

Lemma ascending_NoDup (l : list Z) : ascending l → NoDup l.
Proof.
  unfold ascending. induction 1 as [|x l Hl IH Hx]; constructor; [|done].
  intros Hin. rewrite Forall_forall in Hx. specialize (Hx x Hin). lia.
Qed.

(** X9: deduplication. On a well-formed batch neither returned collection
    repeats a value; with [open_shell] each has at most as many elements as
    the batch has configurations, and without it the shared collection has
    at most twice as many. *)
Theorem ci_strs_deduplicated (batch : list (list bool)) (norb : nat) :
  well_formed batch norb →
  (∃ right left,
     bitstring_matrix_to_ci_strs batch true = Done (right, left)
     ∧ NoDup right ∧ NoDup left
     ∧ (length right ≤ length batch)%nat
     ∧ (length left ≤ length batch)%nat)
  ∧ (∃ u,
       bitstring_matrix_to_ci_strs batch false = Done (u, u)
       ∧ NoDup u
       ∧ (length u ≤ 2 * length batch)%nat).
Proof.
  intros Hwf.
  rewrite !(bitstring_matrix_to_ci_strs_spec batch norb) by done. cbn zeta.
  assert (∀ f : list bool → Z,
            (length (set_of_range (map f batch)) ≤ length batch)%nat) as Hlen.
  { intros f. unfold set_of_range.
    pose proof (set_insert_range_length [] (map f batch)) as H.
    rewrite length_map in H. simpl in H. lia. }
  split.
  - do 2 eexists. split; [done|].
    split; [apply ascending_NoDup, set_of_range_ascending|].
    split; [apply ascending_NoDup, set_of_range_ascending|].
    split; apply Hlen.
  - eexists. split; [done|].
    split; [apply ascending_NoDup, combined_ascending|].
    match goal with
    | |- (length (set_insert_range (set_insert_range [] ?l) ?r) ≤ _)%nat =>
        pose proof (set_insert_range_length (set_insert_range [] l) r);
        pose proof (set_insert_range_length [] l)
    end.
    pose proof (Hlen (low_half norb)). pose proof (Hlen (high_half norb)).
    simpl in *. lia.
Qed.

Lemma ci_strs_deduplicated_witness :
  ∃ u, bitstring_matrix_to_ci_strs scenario_batch false = Done (u, u)
    ∧ NoDup u ∧ (length u ≤ 4)%nat.
Proof.
  exact (proj2 (ci_strs_deduplicated scenario_batch 4
                  ltac:(well_formed_by_evaluation))).
Defined.

(** ** The merge, beyond the reference *)

(** X10: [get_unique_ci_strs_with_HF] depends on its two sequences only
    through the set of values they hold together: swapping them, reordering
    them or repeating values in them changes nothing. *)
Theorem get_unique_ci_strs_with_HF_canonical (sqd_data : SQD)
    (left1 right1 left2 right2 : list Z) (num_elec : nat) :
  (∀ x, x ∈ left1 ∨ x ∈ right1 ↔ x ∈ left2 ∨ x ∈ right2) →
  get_unique_ci_strs_with_HF sqd_data left1 right1 num_elec
  = get_unique_ci_strs_with_HF sqd_data left2 right2 num_elec.
Proof.
  intros Hx. unfold get_unique_ci_strs_with_HF.
  destruct (if with_hf sqd_data
            then one ← shl1_u64 num_elec;
                 Done (set_insert (wrap64 (one - 1)) [])
            else Done []) as [s0| |] eqn:Hs0; cbn [mbind outcome_bind];
    [|done..].
  assert (ascending s0) as Hasc.
  { destruct (with_hf sqd_data); [|injection Hs0 as <-; constructor].
    destruct (shl1_u64 num_elec); cbn [mbind outcome_bind] in Hs0;
      [|done..].
    injection Hs0 as <-. repeat constructor. }
  do 2 f_equal. apply ascending_ext.
  - by do 2 apply set_insert_range_ascending.
  - by do 2 apply set_insert_range_ascending.
  - intros x. rewrite !set_insert_range_elem. specialize (Hx x). tauto.
Qed.

Lemma get_unique_ci_strs_with_HF_canonical_witness :
  get_unique_ci_strs_with_HF example_sqd [5; 9; 5] [6] 2
  = get_unique_ci_strs_with_HF example_sqd [6; 9] [5; 6] 2.
Proof.
  apply get_unique_ci_strs_with_HF_canonical.
  intros x. rewrite !elem_of_cons, !elem_of_nil. tauto.
Defined.

(** X11: [get_unique_ci_strs_with_HF] returns exactly when the reference is
    off or [num_elec < 64]. With the reference on and [num_elec] at 64 or
    above the shift is undefined; with it off [num_elec] is not looked at
    and the result holds the values of the two sequences and nothing else.
    It never throws. *)
Theorem get_unique_ci_strs_with_HF_returns_iff (sqd_data : SQD)
    (left_ci_strs right_ci_strs : list Z) (num_elec : nat) :
  (with_hf sqd_data = true → (64 ≤ num_elec)%nat →
   get_unique_ci_strs_with_HF sqd_data left_ci_strs right_ci_strs num_elec
   = Undefined)
  ∧ (with_hf sqd_data = false →
     ∃ s, get_unique_ci_strs_with_HF sqd_data left_ci_strs right_ci_strs
            num_elec = Done s
       ∧ ascending s
       ∧ ∀ x, x ∈ s ↔ x ∈ left_ci_strs ∨ x ∈ right_ci_strs)
  ∧ (∀ what,
       get_unique_ci_strs_with_HF sqd_data left_ci_strs right_ci_strs
         num_elec ≠ Throws what).
Proof.
  split; [|split].
  - intros Hhf Hne. unfold get_unique_ci_strs_with_HF, shl1_u64.
    rewrite Hhf, decide_False by lia. done.
  - intros Hhf.
    destruct (get_unique_ci_strs_with_HF_defined sqd_data left_ci_strs
                right_ci_strs num_elec) as [s Hs];
      [by rewrite Hhf|].
    exists s. split; [done|].
    apply get_unique_ci_strs_with_HF_Done in Hs as [Hasc Hx].
    split; [done|]. intros x. rewrite Hx, Hhf.
    split; [intros [[? _]|?]; [done|tauto]|tauto].
  - intros what. unfold get_unique_ci_strs_with_HF, shl1_u64.
    destruct (with_hf sqd_data); [case_decide|]; done.
Qed.

Lemma get_unique_ci_strs_with_HF_returns_iff_witness :
  get_unique_ci_strs_with_HF example_sqd [1] [2] 64 = Undefined.
Proof.
  refine (proj1 (get_unique_ci_strs_with_HF_returns_iff example_sqd [1] [2]
                   64) eq_refl _).
  lia.
Defined.

(** ** What write_alphadets_file leaves behind *)

Lemma log_frame (sqd_data : SQD) (messages : list string) (w : world) :
  files (log sqd_data messages w) = files w
  ∧ denied (log sqd_data messages w) = denied w
  ∧ cerr (log sqd_data messages w) = cerr w
  ∧ clock (log sqd_data messages w) = clock w
  ∧ cout (log sqd_data messages w)
    = (if verbose sqd_data
       then cout w ++ [get_time false w +:+ ": " +:+ concat_strings messages]
       else cout w).
Proof. unfold log. by destruct (verbose sqd_data). Qed.

Lemma logs_frame (sqd_data : SQD) (m1 m2 m3 m4 : list string) (w : world) :
  let wl := log sqd_data m4 (log sqd_data m3 (log sqd_data m2
              (log sqd_data m1 w))) in
  files wl = files w ∧ denied wl = denied w ∧ cerr wl = cerr w
  ∧ clock wl = clock w
  ∧ cout wl
    = (if verbose sqd_data
       then cout w ++ map (fun m => get_time false w +:+ ": "
                                    +:+ concat_strings m) [m1; m2; m3; m4]
       else cout w).
Proof.
  cbn zeta. unfold log, get_time. destruct (verbose sqd_data); cbn; [|done].
  by rewrite <- !app_assoc.
Qed.

Lemma write_alphadets_file_shape (sqd_data : SQD) (norb num_elec : nat)
    (batch : list (list bool)) (budget i_recovery : nat) (w : world) :
  let run := write_alphadets_file sqd_data norb num_elec batch budget
               i_recovery w in
  (∃ records m1 m2 m3 m4,
     run = (Done (alphadets_bin_file sqd_data i_recovery),
            write_bytestrings_to_file records
              (alphadets_bin_file sqd_data i_recovery)
              (log sqd_data m4 (log sqd_data m3 (log sqd_data m2
                 (log sqd_data m1 w))))))
  ∨ ((∀ name, run.1 ≠ Done name)
     ∧ files run.2 = files w ∧ denied run.2 = denied w
     ∧ cerr run.2 = cerr w ∧ clock run.2 = clock w
     ∧ (verbose sqd_data = false → cout run.2 = cout w)).
Proof.
  cbn zeta. unfold write_alphadets_file.
  destruct (bitstring_matrix_to_ci_strs batch false) as [ci| |].
  2,3: right; cbn [fst snd];
    destruct (log_frame sqd_data
                ["number of items in a batch: "; to_string (length batch)] w)
      as (-> & -> & -> & -> & ->);
    repeat split; try done; by intros ->.
  destruct (get_unique_ci_strs_with_HF sqd_data ci.1 ci.2 num_elec)
    as [unique| |].
  2,3: right; cbn [fst snd]; rewrite !(proj1 (log_frame _ _ _)),
    !(proj1 (proj2 (log_frame _ _ _))),
    !(proj1 (proj2 (proj2 (log_frame _ _ _)))),
    !(proj1 (proj2 (proj2 (proj2 (log_frame _ _ _)))));
    repeat split; try done; intros Hq;
    rewrite !(proj2 (proj2 (proj2 (proj2 (log_frame _ _ _))))), Hq; done.
  destruct (truncate_to_budget unique budget) as [kept line].
  destruct (ci_strs_to_bytes kept (size_to_int norb)) as [records| |].
  2,3: right; cbn [fst snd]; rewrite !(proj1 (log_frame _ _ _)),
    !(proj1 (proj2 (log_frame _ _ _))),
    !(proj1 (proj2 (proj2 (log_frame _ _ _)))),
    !(proj1 (proj2 (proj2 (proj2 (log_frame _ _ _)))));
    repeat split; try done; intros Hq;
    rewrite !(proj2 (proj2 (proj2 (proj2 (log_frame _ _ _))))), Hq; done.
  left. by do 5 eexists.
Qed.

(** X12: whatever its arguments and however it ends, [write_alphadets_file]
    changes no file but the artifact of this run and recovery, never
    changes which paths can be opened, writes nothing on standard output
    unless [verbose] is set, and nothing on standard error when the
    artifact can be opened; when it does not return normally the disk is
    as before. *)
Theorem write_alphadets_file_frame (sqd_data : SQD) (norb num_elec : nat)
    (batch : list (list bool)) (budget i_recovery : nat) (w : world) :
  let run := write_alphadets_file sqd_data norb num_elec batch budget
               i_recovery w in
  denied run.2 = denied w
  ∧ (∀ other, other ≠ alphadets_bin_file sqd_data i_recovery →
       files run.2 !! other = files w !! other)
  ∧ (verbose sqd_data = false → cout run.2 = cout w)
  ∧ (alphadets_bin_file sqd_data i_recovery ∉ denied w → cerr run.2 = cerr w)
  ∧ ((∀ name, run.1 ≠ Done name) → files run.2 = files w).
Proof.
  cbn zeta.
  destruct (write_alphadets_file_shape sqd_data norb num_elec batch budget
              i_recovery w)
    as [(records & m1 & m2 & m3 & m4 & ->)
       |(Hfail & Hf & Hd & He & _ & Hc)]; cbn zeta.
  - cbn [fst snd].
    destruct (logs_frame sqd_data m1 m2 m3 m4 w) as (Hf & Hd & He & _ & Hc).
    cbn zeta in *. unfold write_bytestrings_to_file. rewrite Hd.
    case_decide; cbn [files denied cout cerr]; rewrite ?Hf, ?He, ?Hc;
      (split; [done|]); (split; [intros other Hne|]);
      rewrite ?lookup_insert_ne by done; try done;
      (split; [by intros ->|]); (split; [done|]);
      intros Hfail; by destruct (Hfail (alphadets_bin_file sqd_data i_recovery)).
  - rewrite Hf, Hd, He. repeat split; done.
Qed.

Lemma write_alphadets_file_frame_witness :
  cerr (write_alphadets_file example_sqd 4 2 scenario_batch 2 0
          example_world).2 = cerr example_world.
Proof.
  refine (proj1 (proj2 (proj2 (proj2 (write_alphadets_file_frame example_sqd
            4 2 scenario_batch 2 0 example_world)))) _).
  unfold example_world. cbn [denied]. apply not_elem_of_empty.
Defined.




Lemma concat_empty_records (ci_strs : list Z) :
  concat (map (be_bytes 0) ci_strs) = [].
Proof. induction ci_strs as [|c cs IH]; [done|]. cbn. apply IH. Qed.

Lemma selected_ci_strs_take (sqd_data : SQD) (num_elec : nat)
    (batch : list (list bool)) (budget : nat) (kept : list Z) :
  selected_ci_strs sqd_data num_elec batch budget = Done kept →
  ∃ merged, merged_ci_strs sqd_data num_elec batch = Done merged
    ∧ kept = take budget merged.
Proof.
  unfold selected_ci_strs.
  destruct (merged_ci_strs sqd_data num_elec batch) as [merged| |];
    cbn [mbind outcome_bind]; [|done..].
  intros [= <-]. exists merged. by rewrite truncate_to_budget_take.
Qed.

(** X14: a budget of zero, or an [norb] of zero, is not an error: on a
    well-formed batch the call returns the artifact name and leaves an
    empty file. *)
Theorem empty_artifact (sqd_data : SQD) (norb num_elec : nat)
    (batch : list (list bool)) (budget i_recovery : nat) (w : world)
    (m : nat) :
  well_formed batch m →
  (with_hf sqd_data = true → (num_elec < 64)%nat) →
  Z.of_nat norb ≤ INT_MAX - 7 →
  alphadets_bin_file sqd_data i_recovery ∉ denied w →
  budget = 0%nat ∨ norb = 0%nat →
  ∃ w',
    write_alphadets_file sqd_data norb num_elec batch budget i_recovery w
      = (Done (alphadets_bin_file sqd_data i_recovery), w')
    ∧ files w' !! alphadets_bin_file sqd_data i_recovery = Some [].
Proof.
  intros Hwf Hne Hnorb Hopen Hzero.
  destruct (write_alphadets_file_defined sqd_data norb num_elec batch budget
              i_recovery w m Hwf Hne Hnorb) as [w' Hrun].
  exists w'. split; [done|].
  apply write_alphadets_file_Done in Hrun
    as (kept & records & Hsel & Hrec & _ & _ & -> & _).
  rewrite decide_False by done. rewrite lookup_insert_eq. f_equal.
  apply selected_ci_strs_take in Hsel as (merged & _ & ->).
  rewrite size_to_int_small in Hrec by (unfold INT_MAX in *; lia).
  rewrite ci_strs_to_bytes_spec in Hrec by (unfold INT_MAX in *; lia).
  injection Hrec as <-. destruct Hzero as [-> | ->]; [done|].
  apply concat_empty_records.
Qed.

Lemma empty_artifact_witness :
  ∃ w',
    write_alphadets_file example_sqd 4 2 scenario_batch 0 0 example_world
      = (Done (alphadets_bin_file example_sqd 0), w')
    ∧ files w' !! alphadets_bin_file example_sqd 0 = Some [].
Proof.
  refine (empty_artifact example_sqd 4 2 scenario_batch 0 0 example_world 4
            _ _ _ _ _).
  - well_formed_by_evaluation.
  - intros _. lia.
  - vm_compute. discriminate.
  - unfold example_world. cbn [denied]. apply not_elem_of_empty.
  - by left.
Defined.

(** X15: the whole pipeline can be read back. On a well-formed batch, with
    the [norb] of the batch passed to [write_alphadets_file] and, when the
    reference is on, [num_elec] at most [norb] and below 64, every CI string
    kept is below [2^norb], and the artifact, cut into records of
    [ceil(norb/8)] bytes read big-endian, gives exactly the kept CI
    strings in their ascending order. *)
Theorem pipeline_round_trip (sqd_data : SQD) (norb num_elec : nat)
    (batch : list (list bool)) (budget i_recovery : nat) (w : world) :
  well_formed batch norb →
  (with_hf sqd_data = true → (num_elec ≤ norb)%nat ∧ (num_elec < 64)%nat) →
  alphadets_bin_file sqd_data i_recovery ∉ denied w →
  ∃ kept w' content,
    selected_ci_strs sqd_data num_elec batch budget = Done kept
    ∧ write_alphadets_file sqd_data norb num_elec batch budget i_recovery w
      = (Done (alphadets_bin_file sqd_data i_recovery), w')
    ∧ files w' !! alphadets_bin_file sqd_data i_recovery = Some content
    ∧ Forall (fun c => 0 ≤ c < 2 ^ Z.of_nat norb) kept
    ∧ length content
      = (length kept * record_bytes (Z.of_nat norb))%nat
    ∧ decode_records (record_bytes (Z.of_nat norb)) (length kept) content
      = kept.
Proof.
  intros Hwf Hne Hopen.
  assert ((norb ≤ 64)%nat) as Hn64 by (by destruct Hwf as (_ & _ & ?)).
  assert (0 ≤ Z.of_nat norb ≤ INT_MAX - 7) as Hint
    by (unfold INT_MAX; lia).
  destruct (write_alphadets_file_defined sqd_data norb num_elec batch budget
              i_recovery w norb Hwf ltac:(intros H; by apply Hne)
              ltac:(lia)) as [w' Hrun].
  pose proof Hrun as Hrun'.
  apply write_alphadets_file_Done in Hrun'
    as (kept & records & Hsel & Hrec & _ & _ & Hfiles & _).
  rewrite decide_False in Hfiles by done.
  rewrite size_to_int_small in Hrec by (unfold INT_MAX in *; lia).
  rewrite ci_strs_to_bytes_spec in Hrec by done. injection Hrec as <-.
  assert (Forall (fun c => 0 ≤ c < 2 ^ Z.of_nat norb) kept) as Hrange.
  { pose proof Hsel as Hsel'.
    apply selected_ci_strs_take in Hsel' as (merged & Hm & ->).
    apply Forall_take. unfold merged_ci_strs in Hm.
    rewrite (bitstring_matrix_to_ci_strs_spec batch norb) in Hm by done.
    cbn zeta in Hm. cbn [mbind outcome_bind fst snd] in Hm.
    apply get_unique_ci_strs_with_HF_Done in Hm as [_ Hx].
    apply Forall_forall. intros x Hin. apply Hx in Hin.
    destruct Hin as [[Hhf ->]|Hin].
    - destruct (Hne Hhf) as [Hle H64].
      assert (0 < 2 ^ Z.of_nat num_elec) by (apply Z.pow_pos_nonneg; lia).
      assert (2 ^ Z.of_nat num_elec ≤ 2 ^ Z.of_nat norb)
        by (apply Z.pow_le_mono_r; lia).
      assert (2 ^ Z.of_nat norb ≤ 2 ^ 64) by (apply Z.pow_le_mono_r; lia).
      unfold wrap64. rewrite Z.mod_small by lia. lia.
    - destruct (ci_strs_of_halves_elem norb batch false x Hin)
        as (row & _ & [-> | ->]); apply halves_range. }
  exists kept, w', (concat (map (be_bytes (record_bytes (Z.of_nat norb))) kept)).
  split; [done|]. split; [done|].
  split; [rewrite Hfiles; apply lookup_insert_eq|]. split; [done|]. split.
  - clear. induction kept as [|c cs IH]; [done|].
    cbn [map concat length]. rewrite length_app, be_bytes_length, IH. lia.
  - apply decode_records_concat. eapply Forall_impl; [exact Hrange|].
    intros c Hc. cbn beta in *.
    pose proof (record_bytes_ceil (Z.of_nat norb) ltac:(lia)) as Hceil.
    change 256 with (2 ^ 8). rewrite <- Z.pow_mul_r by lia.
    assert (2 ^ Z.of_nat norb
            ≤ 2 ^ (8 * Z.of_nat (record_bytes (Z.of_nat norb))))
      by (apply Z.pow_le_mono_r; lia).
    lia.
Qed.

Lemma pipeline_round_trip_witness :
  ∃ kept w' content,
    selected_ci_strs example_sqd 2 scenario_batch 2 = Done kept
    ∧ write_alphadets_file example_sqd 4 2 scenario_batch 2 0 example_world
      = (Done (alphadets_bin_file example_sqd 0), w')
    ∧ files w' !! alphadets_bin_file example_sqd 0 = Some content
    ∧ decode_records 1 (length kept) content = kept.
Proof.
  destruct (pipeline_round_trip example_sqd 4 2 scenario_batch 2 0
              example_world)
    as (kept & w' & content & Hsel & Hrun & Hfile & _ & _ & Hdec).
  - well_formed_by_evaluation.
  - intros _. lia.
  - unfold example_world. cbn [denied]. apply not_elem_of_empty.
  - exists kept, w', content. repeat split; assumption.
Defined.

Lemma string_length_append (s t : string) :
  String.length (s +:+ t) = (String.length s + String.length t)%nat.
Proof.
  induction s as [|a s IH]; [done|].
  change (String a s +:+ t) with (String a (s +:+ t)).
  cbn [String.length]. by rewrite IH.
Qed.

Lemma string_append_inj_r (s1 s2 t : string) :
  s1 +:+ t = s2 +:+ t → s1 = s2.
Proof.
  revert s2. induction s1 as [|a s1 IH]; intros [|b s2] H.
  - done.
  - apply (f_equal String.length) in H.
    rewrite !string_length_append in H. cbn [String.length] in H. lia.
  - apply (f_equal String.length) in H.
    rewrite !string_length_append in H. cbn [String.length] in H. lia.
  - change (String a (s1 +:+ t) = String b (s2 +:+ t)) in H.
    injection H as -> H. f_equal. by apply IH.
Qed.

(** X16: within one run the artifact name determines the recovery index:
    two different recoveries never write to the same file. *)
Theorem alphadets_bin_file_inj (sqd_data : SQD) (i j : nat) :
  alphadets_bin_file sqd_data i = alphadets_bin_file sqd_data j → i = j.
Proof.
  unfold alphadets_bin_file, to_string. intros H.
  do 3 apply (inj (String.append _)) in H.
  apply string_append_inj_r in H. by apply (inj pretty) in H.
Qed.

Lemma alphadets_bin_file_inj_witness :
  alphadets_bin_file example_sqd 3 = alphadets_bin_file example_sqd (1 + 2)
  ∧ (3 = 1 + 2)%nat.
Proof.
  split; [reflexivity|].
  apply (alphadets_bin_file_inj example_sqd 3 (1 + 2)). reflexivity.
Defined.

(** ** Reading numbers: std::stoi against std::to_string *)

Lemma digit_char (d : N) :
  (d < 10)%N →
  digit_of (pretty_N_char d) = Some (Z.of_N d)
  ∧ ∀ s, stoi (String (pretty_N_char d) s)
         = (let '(magnitude, seen) :=
              strtol_digits (String (pretty_N_char d) s) 0 false in
            if seen : bool then
              if decide (INT_MIN ≤ magnitude ≤ INT_MAX) then Done magnitude
              else Throws "std::out_of_range"
            else Throws "std::invalid_argument").
Proof.
  intros Hd.
  assert (d = 0 ∨ d = 1 ∨ d = 2 ∨ d = 3 ∨ d = 4 ∨ d = 5 ∨ d = 6 ∨ d = 7
          ∨ d = 8 ∨ d = 9)%N as Hcases by lia.
  decompose [or] Hcases; subst d; (split; [reflexivity|intros s; reflexivity]).
Qed.

Lemma strtol_digits_pretty (x : N) :
  ∀ s, (0 < x)%N →
    strtol_digits (pretty_N_go x s) 0 false = strtol_digits s (Z.of_N x) true
    ∧ ∃ d s', (d < 10)%N ∧ pretty_N_go x s = String (pretty_N_char d) s'.
Proof.
  induction (N.lt_wf_0 x) as [x _ IH]. intros s Hx.
  rewrite pretty_N_go_step by done.
  assert (x `mod` 10 < 10)%N as Hr by (apply N.mod_lt; lia).
  pose proof (N.div_mod x 10 ltac:(lia)) as Hdm.
  destruct (digit_char _ Hr) as [Hdigit _].
  destruct (decide (x `div` 10 = 0)%N) as [Hq|Hq].
  - rewrite Hq, pretty_N_go_0. split; [|by eauto].
    cbn [strtol_digits]. rewrite Hdigit. f_equal. lia.
  - destruct (IH (x `div` 10)%N ltac:(apply N.div_lt; lia)
                (String (pretty_N_char (x `mod` 10)) s) ltac:(lia))
      as [Hval Hhead].
    split; [|done]. rewrite Hval. cbn [strtol_digits]. rewrite Hdigit.
    f_equal. lia.
Qed.

Lemma strtol_digits_to_string (n : nat) :
  strtol_digits (to_string n) 0 false = (Z.of_nat n, true)
  ∧ ∃ d s', (d < 10)%N ∧ to_string n = String (pretty_N_char d) s'.
Proof.
  unfold to_string, pretty, pretty_nat, pretty, pretty_N.
  case_decide as Hn.
  - assert (n = 0%nat) as -> by lia.
    split; [reflexivity|]. by exists 0%N, "".
  - destruct (strtol_digits_pretty (N.of_nat n) "" ltac:(lia)) as [-> Hhead].
    split; [|done]. cbn [strtol_digits]. f_equal. lia.
Qed.

Lemma stoi_to_string_helper (n : nat) :
  stoi (to_string n)
  = (if decide (Z.of_nat n ≤ INT_MAX) then Done (Z.of_nat n)
     else Throws "std::out_of_range")
  ∧ stoi ("-" +:+ to_string n)
    = (if decide (Z.of_nat n ≤ - INT_MIN) then Done (- Z.of_nat n)
       else Throws "std::out_of_range").
Proof.
  destruct (strtol_digits_to_string n) as [Hval (d & s' & Hd & Hhead)].
  split.
  - rewrite Hhead. rewrite (proj2 (digit_char d Hd)). rewrite <- Hhead, Hval.
    unfold INT_MIN, INT_MAX. repeat case_decide; (done || lia).
  - change ("-" +:+ to_string n) with (String "-" (to_string n)).
    unfold stoi. cbn [skip_spaces].
    change (is_space "-") with false. cbn iota. rewrite Hval.
    unfold INT_MIN, INT_MAX. repeat case_decide; (done || lia).
Qed.

(** X17: [std::stoi] reads back what [std::to_string] writes, up to
    [INT_MAX], and throws [std::out_of_range] above; with a minus sign in
    front it returns the negative number down to [INT_MIN]; leading blanks
    and a plus sign change nothing; and a string without a digit in first
    place, as the empty one or any that starts like an option, makes it
    throw [std::invalid_argument]. *)
Theorem stoi_to_string (n : nat) (rest : string) :
  stoi (to_string n)
  = (if decide (Z.of_nat n ≤ INT_MAX) then Done (Z.of_nat n)
     else Throws "std::out_of_range")
  ∧ stoi ("-" +:+ to_string n)
    = (if decide (Z.of_nat n ≤ - INT_MIN) then Done (- Z.of_nat n)
       else Throws "std::out_of_range")
  ∧ stoi ("  +" +:+ to_string n) = stoi (to_string n)
  ∧ stoi "" = Throws "std::invalid_argument"
  ∧ stoi ("-" +:+ "-" +:+ rest) = Throws "std::invalid_argument"
  ∧ stoi ("-v" +:+ rest) = Throws "std::invalid_argument".
Proof.
  destruct (stoi_to_string_helper n) as [Hplain Hminus].
  split; [done|]. split; [done|].
  split; [|split; [reflexivity|split; reflexivity]].
  destruct (strtol_digits_to_string n) as [Hval (d & s' & Hd & Hhead)].
  rewrite Hhead at 2. rewrite (proj2 (digit_char d Hd)), <- Hhead.
  change ("  +" +:+ to_string n)
    with (String " " (String " " (String "+" (to_string n)))).
  unfold stoi. cbn [skip_spaces]. change (is_space " ") with true.
  change (is_space "+") with false. cbn iota. done.
Qed.

(** ** generate_sqd_data *)

Lemma value_option_miss (argv : list string) (flag : string)
    (read : string → outcome SQD) (i : nat) (sqd : SQD) (a : string) :
  argv !! i = Some a → a ≠ flag →
  value_option argv flag read (i, sqd) = Done (i, sqd).
Proof.
  intros Ha Hne. unfold value_option, arg_at. cbn [fst].
  rewrite (vec_at_Some argv i a) by done. cbn [mbind outcome_bind].
  by rewrite (proj2 (String.eqb_neq a flag)).
Qed.

Lemma value_option_hit (argv : list string) (flag : string)
    (read : string → outcome SQD) (i : nat) (sqd : SQD) :
  argv !! i = Some flag →
  value_option argv flag read (i, sqd)
  = (v ← arg_at argv (i + 1); sqd' ← read v; Done (S i, sqd')).
Proof.
  intros Ha. unfold value_option, arg_at. cbn [fst].
  rewrite (vec_at_Some argv i flag) by done. cbn [mbind outcome_bind].
  by rewrite String.eqb_refl.
Qed.

Lemma parse_step_plain (argv : list string) (i : nat) (sqd : SQD)
    (a : string) :
  argv !! i = Some a → ¬ is_option a →
  parse_step argv (i, sqd) = Done (i, sqd).
Proof.
  intros Ha Hplain. unfold is_option in Hplain. unfold parse_step.
  rewrite (value_option_miss argv _ _ i sqd a) by tauto.
  cbn [mbind outcome_bind].
  rewrite (value_option_miss argv _ _ i sqd a) by tauto.
  cbn [mbind outcome_bind].
  rewrite (value_option_miss argv _ _ i sqd a) by tauto.
  cbn [mbind outcome_bind].
  rewrite (value_option_miss argv _ _ i sqd a) by tauto.
  cbn [mbind outcome_bind fst snd]. unfold arg_at.
  rewrite (vec_at_Some argv i a) by done. cbn [mbind outcome_bind].
  rewrite (proj2 (String.eqb_neq a "-v")) by tauto. done.
Qed.

Lemma parse_loop_plain_prefix (argv : list string) (k : nat) :
  ∀ (fuel i : nat) (sqd : SQD),
    (∀ j, (i ≤ j < i + k)%nat → ∃ a, argv !! j = Some a ∧ ¬ is_option a) →
    parse_loop (k + fuel) argv i sqd = parse_loop fuel argv (i + k) sqd.
Proof.
  induction k as [|k IH]; intros fuel i sqd Hplain.
  - by rewrite Nat.add_0_r.
  - destruct (Hplain i ltac:(lia)) as (a & Ha & Hna).
    cbn [Nat.add parse_loop].
    rewrite decide_True by (by eapply lookup_lt_Some).
    rewrite (parse_step_plain argv i sqd a) by done.
    cbn [mbind outcome_bind fst snd]. rewrite IH.
    + f_equal. lia.
    + intros j Hj. apply Hplain. lia.
Qed.

(** X18: arguments that are none of the five options are skipped without
    notice: a command line made of such arguments only (or of the program
    name alone, or empty) gives the struct as its initialisers leave it,
    dated and named by the clock. *)
Theorem unknown_arguments_ignored (argv : list string) (w : world) :
  (∀ j a, (1 ≤ j)%nat → argv !! j = Some a → ¬ is_option a) →
  generate_sqd_data argv w = Done (default_sqd w)
  ∧ run_id (default_sqd w) = get_time true w
  ∧ verbose (default_sqd w) = false
  ∧ with_hf (default_sqd w) = true.
Proof.
  intros Hplain. split; [|done]. unfold generate_sqd_data.
  destruct (decide (length argv ≤ 1)%nat) as [Hshort|Hlong].
  - destruct argv as [|prog [|a argv]]; cbn [parse_loop length];
      [by rewrite decide_False by lia..|cbn [length] in Hshort; lia].
  - replace (length argv) with ((length argv - 1) + 1)%nat at 1 by lia.
    rewrite parse_loop_plain_prefix.
    + cbn [parse_loop]. by rewrite decide_False by lia.
    + intros j Hj. destruct (lookup_lt_is_Some_2 argv j ltac:(lia)) as [a Ha].
      exists a. split; [done|]. apply (Hplain j); [lia|done].
Qed.

Lemma unknown_arguments_ignored_witness :
  generate_sqd_data ["sqd"; "--verbose"; "5"; "-V"] example_world
  = Done (default_sqd example_world).
Proof.
  refine (proj1 (unknown_arguments_ignored ["sqd"; "--verbose"; "5"; "-V"]
                   example_world _)).
  intros j a Hj Ha. unfold is_option.
  destruct j as [|[|[|[|j]]]]; cbn in Ha; [lia|..|done];
    injection Ha as <-; intros H; decompose [or] H; discriminate.
Defined.

(** X19: a value option that comes last has no value to read: the code
    builds a string from the null pointer that ends [argv], which is
    undefined behaviour; no message, no exception of the code's own. *)
Theorem missing_value_undefined (pre : list string) (flag : string)
    (w : world) :
  pre ≠ [] →
  (∀ j a, (1 ≤ j)%nat → pre !! j = Some a → ¬ is_option a) →
  takes_value flag →
  generate_sqd_data (pre ++ [flag]) w = Undefined.
Proof.
  intros Hpre Hplain Hflag. unfold generate_sqd_data.
  destruct pre as [|prog pre]; [done|]. clear Hpre.
  rewrite length_app. cbn [length].
  replace (S (length pre) + 1)%nat with (length pre + 2)%nat by lia.
  rewrite parse_loop_plain_prefix.
  2:{ intros j Hj.
      destruct (lookup_lt_is_Some_2 (prog :: pre) j ltac:(cbn; lia))
        as [a Ha].
      exists a. rewrite lookup_app_l by (cbn; lia). split; [done|].
      apply (Hplain j); [lia|done]. }
  set (argv := (prog :: pre) ++ [flag]).
  assert (argv !! (1 + length pre)%nat = Some flag) as Hat.
  { unfold argv. rewrite lookup_app_r by (cbn; lia).
    cbn [length]. by rewrite Nat.sub_diag. }
  assert (arg_at argv (1 + length pre + 1) = Undefined) as Hnull.
  { unfold arg_at, vec_at. rewrite lookup_ge_None_2; [done|].
    unfold argv. rewrite length_app. cbn [length]. lia. }
  cbn [parse_loop]. rewrite decide_True
    by (unfold argv; rewrite length_app; cbn [length]; lia).
  unfold parse_step. unfold takes_value in Hflag.
  destruct Hflag as [-> | [-> | [-> | ->]]].
  - rewrite value_option_hit by done. by rewrite Hnull.
  - rewrite (value_option_miss argv _ _ _ _ _ Hat) by done.
    cbn [mbind outcome_bind].
    rewrite value_option_hit by done. by rewrite Hnull.
  - rewrite (value_option_miss argv _ _ _ _ _ Hat) by done.
    cbn [mbind outcome_bind].
    rewrite (value_option_miss argv _ _ _ _ _ Hat) by done.
    cbn [mbind outcome_bind].
    rewrite value_option_hit by done. by rewrite Hnull.
  - rewrite (value_option_miss argv _ _ _ _ _ Hat) by done.
    cbn [mbind outcome_bind].
    rewrite (value_option_miss argv _ _ _ _ _ Hat) by done.
    cbn [mbind outcome_bind].
    rewrite (value_option_miss argv _ _ _ _ _ Hat) by done.
    cbn [mbind outcome_bind].
    rewrite value_option_hit by done. by rewrite Hnull.
Qed.

Lemma missing_value_undefined_witness :
  generate_sqd_data ["sqd"; "extra"; "--num_shots"] example_world = Undefined.
Proof.
  refine (missing_value_undefined ["sqd"; "extra"] "--num_shots"
            example_world _ _ _).
  - discriminate.
  - intros j a Hj Ha. unfold is_option.
    destruct j as [|[|j]]; cbn in Ha; [lia| |done].
    injection Ha as <-. intros H; decompose [or] H; discriminate.
  - unfold takes_value. tauto.
Defined.

Lemma parse_loop_done (argv : list string) (fuel i : nat) (sqd : SQD) :
  (length argv ≤ i)%nat → parse_loop fuel argv i sqd = Done sqd.
Proof. intros H. destruct fuel; cbn [parse_loop]; by rewrite decide_False by lia. Qed.

(** X20: the four [if]s that take a value are not chained with [else], so the
    value of one option is looked at again by the tests that follow it. A
    backend named "-v" is stored as the backend name and also turns
    [verbose] on, and a backend named "--num_shots" is stored and then read
    as the option itself, whose value is then missing; any other value is
    stored and nothing else changes. *)
Theorem backend_value_examined_again (prog v : string) (w : world) :
  (v ≠ "--num_shots" →
   generate_sqd_data [prog; "--backend_name"; v] w
   = Done (if String.eqb v "-v"
           then set_verbose (set_backend_name (default_sqd w) v)
           else set_backend_name (default_sqd w) v))
  ∧ generate_sqd_data [prog; "--backend_name"; "--num_shots"] w = Undefined
  ∧ generate_sqd_data [prog; "--backend_name"; "--num_shots"; "7"] w
    = Done (set_num_shots (set_backend_name (default_sqd w) "--num_shots") 7).
Proof.
  split; [|split; reflexivity].
  intros Hne. unfold generate_sqd_data. cbn [length parse_loop].
  rewrite decide_True by lia. unfold parse_step.
  rewrite (value_option_miss _ _ _ _ _ "--backend_name") by done.
  cbn [mbind outcome_bind].
  rewrite (value_option_miss _ _ _ _ _ "--backend_name") by done.
  cbn [mbind outcome_bind].
  rewrite value_option_hit by done.
  cbn [arg_at vec_at lookup list_lookup Nat.add mbind outcome_bind fst snd].
  rewrite (value_option_miss _ _ _ _ _ v) by done.
  cbn [arg_at vec_at lookup list_lookup mbind outcome_bind fst snd].
  by rewrite decide_False by lia.
Qed.

Lemma backend_value_examined_again_witness :
  generate_sqd_data ["sqd"; "--backend_name"; "-v"] example_world
  = Done (set_verbose (set_backend_name (default_sqd example_world) "-v")).
Proof.
  refine (proj1 (backend_value_examined_again "sqd" "-v" example_world) _).
  discriminate.
Defined.

Lemma to_string_plain (n : nat) :
  ¬ is_option (to_string n) ∧ ¬ is_option ("-" +:+ to_string n).
Proof.
  destruct (strtol_digits_to_string n) as [_ (d & s' & Hd & ->)].
  change ("-" +:+ String (pretty_N_char d) s')
    with (String "-" (String (pretty_N_char d) s')).
  assert (d = 0 ∨ d = 1 ∨ d = 2 ∨ d = 3 ∨ d = 4 ∨ d = 5 ∨ d = 6 ∨ d = 7
          ∨ d = 8 ∨ d = 9)%N as Hcases by lia.
  unfold is_option.
  decompose [or] Hcases; subst d;
    (split; intros H; decompose [or] H; discriminate).
Qed.

Ltac option_miss a :=
  rewrite (value_option_miss _ _ _ _ _ a) by (done || tauto);
  cbn [mbind outcome_bind].

Ltac option_hit :=
  rewrite value_option_hit by done;
  cbn [arg_at vec_at lookup list_lookup Nat.add mbind outcome_bind fst snd].

Ltac last_check v :=
  cbn [arg_at vec_at lookup list_lookup mbind outcome_bind fst snd];
  rewrite (proj2 (String.eqb_neq v "-v")) by tauto;
  by rewrite decide_False by lia.

Lemma numeric_options (prog v : string) (w : world) :
  ¬ is_option v →
  generate_sqd_data [prog; "--recovery"; v] w
  = (n ← stoi v; Done (set_n_recovery (default_sqd w) n))
  ∧ generate_sqd_data [prog; "--number_of_samples"; v] w
    = (n ← stoi v; Done (set_samples_per_batch (default_sqd w) n))
  ∧ generate_sqd_data [prog; "--num_shots"; v] w
    = (n ← stoi v; Done (set_num_shots (default_sqd w) n)).
Proof.
  intros Hplain. unfold is_option in Hplain.
  split; [|split]; unfold generate_sqd_data; cbn [length parse_loop];
    rewrite decide_True by lia; unfold parse_step.
  - option_hit. destruct (stoi v) as [n| |]; cbn [mbind outcome_bind];
      [|done..].
    option_miss v. option_miss v. option_miss v. last_check v.
  - option_miss "--number_of_samples". option_hit.
    destruct (stoi v) as [n| |]; cbn [mbind outcome_bind]; [|done..].
    option_miss v. option_miss v. last_check v.
  - option_miss "--num_shots". option_miss "--num_shots".
    option_miss "--num_shots". option_hit.
    destruct (stoi v) as [n| |]; cbn [mbind outcome_bind]; [|done..].
    last_check v.
Qed.

(** X21: a count written in decimal after "--recovery",
    "--number_of_samples" or "--num_shots" is stored as that number as
    long as it is at most [INT_MAX]; a larger one, although the fields are
    64 bits wide, is refused with [std::out_of_range]. *)
Theorem counts_parsed (prog : string) (n : nat) (w : world) :
  let read (set : SQD → Z → SQD) : outcome SQD :=
    if decide (Z.of_nat n ≤ INT_MAX)
    then Done (set (default_sqd w) (Z.of_nat n))
    else Throws "std::out_of_range" in
  generate_sqd_data [prog; "--recovery"; to_string n] w
  = read set_n_recovery
  ∧ generate_sqd_data [prog; "--number_of_samples"; to_string n] w
    = read set_samples_per_batch
  ∧ generate_sqd_data [prog; "--num_shots"; to_string n] w
    = read set_num_shots
  ∧ (Z.of_nat n ≤ INT_MAX →
     n_recovery (set_n_recovery (default_sqd w) (Z.of_nat n)) = Z.of_nat n
     ∧ samples_per_batch (set_samples_per_batch (default_sqd w) (Z.of_nat n))
       = Z.of_nat n
     ∧ num_shots (set_num_shots (default_sqd w) (Z.of_nat n)) = Z.of_nat n).
Proof.
  cbn zeta.
  destruct (numeric_options prog (to_string n) w
              (proj1 (to_string_plain n))) as (-> & -> & ->).
  rewrite (proj1 (stoi_to_string_helper n)).
  split; [by case_decide|]. split; [by case_decide|].
  split; [by case_decide|].
  intros Hn. cbn [n_recovery samples_per_batch num_shots set_n_recovery
                  set_samples_per_batch set_num_shots].
  unfold wrap64, INT_MAX in *. rewrite Z.mod_small by lia. done.
Qed.

Lemma counts_parsed_witness :
  n_recovery (set_n_recovery (default_sqd example_world) (Z.of_nat 12)) = 12.
Proof.
  refine (proj1 (proj2 (proj2 (proj2 (counts_parsed "sqd" 12 example_world)))
                   _)).
  vm_compute. discriminate.
Defined.

(** X22: a negative count is not refused: [std::stoi] returns the negative
    [int] and the assignment to the unsigned 64-bit field wraps it, so
    "--num_shots -n" asks for [2^64 - n] shots (and likewise for the other
    two counts), for [n] from 1 to [2^31]. *)
Theorem negative_count_wraps (prog : string) (n : nat) (w : world) :
  (1 ≤ n)%nat → Z.of_nat n ≤ 2 ^ 31 →
  (∃ sqd, generate_sqd_data [prog; "--num_shots"; "-" +:+ to_string n] w
          = Done sqd
     ∧ num_shots sqd = 2 ^ 64 - Z.of_nat n)
  ∧ (∃ sqd, generate_sqd_data [prog; "--recovery"; "-" +:+ to_string n] w
            = Done sqd
       ∧ n_recovery sqd = 2 ^ 64 - Z.of_nat n)
  ∧ (∃ sqd,
       generate_sqd_data [prog; "--number_of_samples"; "-" +:+ to_string n] w
       = Done sqd
       ∧ samples_per_batch sqd = 2 ^ 64 - Z.of_nat n).
Proof.
  intros Hn Hle.
  destruct (numeric_options prog ("-" +:+ to_string n) w
              (proj2 (to_string_plain n))) as (-> & -> & ->).
  rewrite (proj2 (stoi_to_string_helper n)).
  rewrite decide_True by (unfold INT_MIN; lia). cbn [mbind outcome_bind].
  assert (wrap64 (- Z.of_nat n) = 2 ^ 64 - Z.of_nat n) as Hwrap.
  { unfold wrap64.
    replace (- Z.of_nat n) with (2 ^ 64 - Z.of_nat n + (-1) * 2 ^ 64) by lia.
    rewrite Z.mod_add by lia. apply Z.mod_small. lia. }
  repeat split; eexists; (split; [reflexivity|]); exact Hwrap.
Qed.

Lemma negative_count_wraps_witness :
  ∃ sqd, generate_sqd_data ["sqd"; "--num_shots"; "-1"] example_world
         = Done sqd
    ∧ num_shots sqd = 2 ^ 64 - 1.
Proof.
  refine (proj1 (negative_count_wraps "sqd" 1 example_world _ _)).
  - lia.
  - vm_compute. discriminate.
Defined.

(** ** The turns of the argument loop *)

Lemma value_option_index (argv : list string) (flag : string)
    (read : string → outcome SQD) (st st' : nat * SQD) :
  value_option argv flag read st = Done st' → (st.1 ≤ st'.1)%nat.
Proof.
  unfold value_option.
  destruct (arg_at argv st.1) as [a| |]; cbn [mbind outcome_bind]; [|done..].
  destruct (String.eqb a flag); [|by intros [= <-]].
  destruct (arg_at argv (st.1 + 1)) as [v| |]; cbn [mbind outcome_bind];
    [|done..].
  destruct (read v) as [sqd| |]; cbn [mbind outcome_bind]; [|done..].
  intros [= <-]. cbn [fst]. lia.
Qed.

Lemma parse_step_index (argv : list string) (st st' : nat * SQD) :
  parse_step argv st = Done st' → (st.1 ≤ st'.1)%nat.
Proof.
  unfold parse_step.
  destruct (value_option argv "--recovery" _ st) as [st1| |] eqn:H1;
    cbn [mbind outcome_bind]; [|done..].
  destruct (value_option argv "--number_of_samples" _ st1) as [st2| |] eqn:H2;
    cbn [mbind outcome_bind]; [|done..].
  destruct (value_option argv "--backend_name" _ st2) as [st3| |] eqn:H3;
    cbn [mbind outcome_bind]; [|done..].
  destruct (value_option argv "--num_shots" _ st3) as [st4| |] eqn:H4;
    cbn [mbind outcome_bind]; [|done..].
  destruct (arg_at argv st4.1) as [a| |]; cbn [mbind outcome_bind]; [|done..].
  intros [= <-]. cbn [fst].
  apply value_option_index in H1, H2, H3, H4. lia.
Qed.

(** X24: the loop of [generate_sqd_data] makes fewer than [argc] turns,
    whatever the arguments, since every turn moves [i] up: allowing the
    model more turns than [argc] never changes what it returns. *)
Theorem parse_loop_turns (argv : list string) (extra : nat) (w : world) :
  parse_loop (length argv + extra) argv 1 (default_sqd w)
  = generate_sqd_data argv w.
Proof.
  unfold generate_sqd_data.
  assert (∀ fuel i sqd, (length argv ≤ fuel + i)%nat →
            parse_loop (fuel + extra) argv i sqd = parse_loop fuel argv i sqd)
    as Hfuel.
  { induction fuel as [|fuel IH]; intros i sqd Hlen.
    - by rewrite !parse_loop_done by lia.
    - cbn [Nat.add parse_loop]. case_decide; [|done].
      destruct (parse_step argv (i, sqd)) as [st| |] eqn:Hstep;
        cbn [mbind outcome_bind]; [|done..].
      apply parse_step_index in Hstep. cbn [fst] in Hstep.
      apply IH. lia. }
  apply Hfuel. lia.
Qed.

(** ** The reference under truncation *)

Lemma filter_below_nil (a : Z) (l : list Z) :
  Forall (Z.lt a) l → filter (fun y : Z => y < a) l = [].
Proof.
  induction 1 as [|y l Hy _ IH]; [done|].
  rewrite filter_cons_False by lia. exact IH.
Qed.

Lemma ascending_take_elem (l : list Z) :
  ∀ (n : nat) (x : Z),
    ascending l → x ∈ l →
    x ∈ take n l ↔ (length (filter (fun y : Z => (y < x)%Z) l) < n)%nat.
Proof.
  unfold ascending. induction l as [|a l IH]; intros n x Hasc Hx.
  - by apply elem_of_nil in Hx.
  - apply StronglySorted_inv in Hasc as [Hasc Ha].
    destruct n as [|n].
    + cbn [take]. rewrite elem_of_nil. split; [done|lia].
    + cbn [take]. rewrite elem_of_cons.
      apply elem_of_cons in Hx as [->|Hx].
      * rewrite filter_cons_False by lia.
        rewrite filter_below_nil by done. cbn [length]. split; [lia|tauto].
      * rewrite Forall_forall in Ha. specialize (Ha x Hx).
        rewrite filter_cons_True by lia. cbn [length].
        rewrite <- Nat.succ_lt_mono, <- (IH n x Hasc Hx).
        split; [intros [->|?]; [lia|done]|tauto].
Qed.

(** X23: the reference is not exempt from the truncation. With the reference
    on, [2^num_elec - 1] is among the CI strings that are serialised
    exactly when fewer than [maximum_numbers_of_ctrs] merged CI strings are
    smaller than it. *)
Theorem reference_kept_iff (sqd_data : SQD) (num_elec : nat)
    (batch : list (list bool)) (budget : nat) (merged kept : list Z) :
  with_hf sqd_data = true →
  (num_elec < 64)%nat →
  merged_ci_strs sqd_data num_elec batch = Done merged →
  selected_ci_strs sqd_data num_elec batch budget = Done kept →
  2 ^ Z.of_nat num_elec - 1 ∈ kept
  ↔ (length (filter (fun c : Z => (c < 2 ^ Z.of_nat num_elec - 1)%Z) merged)
     < budget)%nat.
Proof.
  intros Hhf Hne Hm Hsel.
  apply selected_ci_strs_take in Hsel as (merged' & Hm' & ->).
  assert (merged' = merged) as -> by congruence.
  unfold merged_ci_strs in Hm.
  destruct (bitstring_matrix_to_ci_strs batch false) as [ci| |];
    cbn [mbind outcome_bind] in Hm; [|done..].
  apply get_unique_ci_strs_with_HF_Done in Hm as [Hasc Hx].
  apply ascending_take_elem; [done|]. apply Hx. left. split; [done|].
  assert (0 < 2 ^ Z.of_nat num_elec) by (apply Z.pow_pos_nonneg; lia).
  assert (2 ^ Z.of_nat num_elec < 2 ^ 64) by (apply Z.pow_lt_mono_r; lia).
  unfold wrap64. rewrite Z.mod_small; lia.
Qed.

Lemma reference_kept_iff_witness :
  2 ^ Z.of_nat 2 - 1 ∉ [1; 2].
Proof.
  intros Hin.
  apply (reference_kept_iff example_sqd 2 scenario_batch 2 [1; 2; 3] [1; 2]
           eq_refl ltac:(lia) eq_refl eq_refl) in Hin.
  vm_compute in Hin. lia.
Defined.
